(** * pywhispercpp command line example: parameter resolution and batch loop

    A shallow embedding of [pywhispercpp/examples/main.py]:
    - [_get_params], which turns the argparse namespace into the keyword
      dictionary handed to the [Model] constructor,
    - the schema driven part of [main], which registers one command line
      flag per schema entry,
    - [run], the per-file transcription loop with its [try]/[except]/
      [finally] structure and the output dispatch of the [finally] block.

    Python dictionaries keep insertion order, so they are association lists
    here, with Python's update-in-place-or-append discipline.  The
    transcription engine ([pywhispercpp.model.Model]) and the writers of
    [pywhispercpp.utils] are outside of this file; they enter as records of
    operations.  The tables [constants.PARAMS_SCHEMA] and
    [constants.PARAMS_MAPPING] are arguments of every definition that reads
    them. *)

From Stdlib Require Import String Ascii List ZArith Bool Lia.
Import ListNotations.
Local Open Scope string_scope.
Local Open Scope list_scope.

Set Implicit Arguments.

(* ===================================================================== *)
(** ** Python strings *)
(* ===================================================================== *)

(** Strings are byte strings.  The three operations used by the source
    ([in] with a one character needle, [str.split] with a one character
    separator, [str.replace] of one character by another) act on single
    ASCII characters, so they commute with UTF-8 encoding. *)
Module PyStr.

(** [c in s] for a one character string [c]. *)
Fixpoint contains (c : ascii) (s : string) : bool :=
  match s with
  | EmptyString => false
  | String a s' => if Ascii.eqb a c then true else contains c s'
  end.

(** [s.split(sep)]: never returns the empty list, the number of pieces
    is the number of separators plus one. *)
Fixpoint split (sep : ascii) (s : string) : list string :=
  match s with
  | EmptyString => [EmptyString]
  | String a s' =>
      if Ascii.eqb a sep then EmptyString :: split sep s'
      else match split sep s' with
           | [] => [String a EmptyString]
           | w :: ws => String a w :: ws
           end
  end.

(** [s.replace(old, new)] for one character strings. *)
Fixpoint replace (old new : ascii) (s : string) : string :=
  match s with
  | EmptyString => EmptyString
  | String a s' =>
      String (if Ascii.eqb a old then new else a) (replace old new s')
  end.

(** [s.lstrip(c)] for a one character string [c]. *)
Fixpoint lstrip (c : ascii) (s : string) : string :=
  match s with
  | EmptyString => EmptyString
  | String a s' => if Ascii.eqb a c then lstrip c s' else s
  end.

End PyStr.

(* ===================================================================== *)
(** ** Python dictionaries with string keys *)
(* ===================================================================== *)

(** Insertion ordered; a well formed dictionary has no repeated key.
    [setitem] keeps the position of a key that is already present and
    appends a new key at the end, as [d[k] = v] does. *)
Module PyDict.

Definition t (V : Type) : Type := list (string * V).

Fixpoint getitem {V} (d : t V) (k : string) : option V :=
  match d with
  | [] => None
  | (k', v) :: d' => if String.eqb k' k then Some v else getitem d' k
  end.

(** [k in d] *)
Definition contains {V} (d : t V) (k : string) : bool :=
  match getitem d k with Some _ => true | None => false end.

Fixpoint setitem {V} (d : t V) (k : string) (v : V) : t V :=
  match d with
  | [] => [(k, v)]
  | (k', v') :: d' =>
      if String.eqb k' k then (k', v) :: d' else (k', v') :: setitem d' k v
  end.

End PyDict.

(* ===================================================================== *)
(** ** Values, exceptions, results *)
(* ===================================================================== *)

(** The values an argparse namespace holds in this program: [None], a
    [store_true] boolean, a value converted by [type=int], [type=str] or
    [type=float] (floats are carried as the text they were parsed from,
    they are only ever passed on), or the list of strings of a [nargs="+"]
    argument.  None of them is a dictionary: the argument set is flat. *)
Inductive pyval : Type :=
| PNone
| PBool (b : bool)
| PInt (z : Z)
| PFloat (repr : string)
| PStr (s : string)
| PList (l : list string).

(** [v is None] *)
Definition is_None (v : pyval) : bool :=
  match v with PNone => true | _ => false end.

(** An entry of the resolved parameters: an argument value stored as it
    is, or a nested dictionary created by [params[arg_] = {}] whose fields
    are argument values. *)
Inductive entry : Type :=
| Leaf (v : pyval)
| Group (fields : PyDict.t pyval).

(** [ResolvedParams]: the dictionary built by [_get_params]. *)
Definition Params : Type := PyDict.t entry.

(** The exceptions that occur.  [KeyboardInterrupt] and [SystemExit] derive
    from [BaseException] only; every other constructor is a subclass of
    [Exception].  [EngineError] stands for any [Exception] the engine
    raises, with its message. *)
Inductive exn : Type :=
| KeyboardInterrupt
| SystemExit
| TypeError
| ValueError
| AttributeError
| KeyError (key : string)
| IndexError
| ArgumentError
| UnboundLocalError (name : string)
| EngineError (msg : string).

(** [isinstance(e, Exception)] *)
Definition is_Exception (e : exn) : bool :=
  match e with
  | KeyboardInterrupt | SystemExit => false
  | _ => true
  end.

Inductive result (A : Type) : Type :=
| Ok (a : A)
| Raise (e : exn).
Arguments Ok {A} a.
Arguments Raise {A} e.

Definition bind {A B} (r : result A) (k : A -> result B) : result B :=
  match r with
  | Ok a => k a
  | Raise e => Raise e
  end.

Declare Scope py_scope.
Delimit Scope py_scope with py.
Notation "x <- c ;; k" := (bind c (fun x => k))
  (at level 61, c at next level, right associativity) : py_scope.

(** A [for] loop whose body may raise: the first exception ends it. *)
Fixpoint for_each {A S} (body : S -> A -> result S) (xs : list A) (s : S)
  : result S :=
  match xs with
  | [] => Ok s
  | x :: xs' => bind (body s x) (for_each body xs')
  end.

(* ===================================================================== *)
(** ** The tables of [pywhispercpp.constants] *)
(* ===================================================================== *)

(** The [type] field of a schema entry, and the result of [type(v)]. *)
Inductive pytype : Type :=
| TNoneType | TBool | TInt | TFloat | TStr | TList | TTuple | TDict.

Definition is_dict (ty : pytype) : bool :=
  match ty with TDict => true | _ => false end.

(** [type(v)] *)
Definition type_of (v : pyval) : pytype :=
  match v with
  | PNone => TNoneType
  | PBool _ => TBool
  | PInt _ => TInt
  | PFloat _ => TFloat
  | PStr _ => TStr
  | PList _ => TList
  end.

(** One value of [PARAMS_SCHEMA]: [{"type": ..., "description": ...,
    "default": ...}].  The default of a dictionary typed parameter is a
    dictionary of sub-keys, hence an [entry]. *)
Record schema_entry : Type := {
  type_ : pytype;
  descr_ : string;
  default_ : entry
}.

(** [PARAMS_SCHEMA]: canonical name -> schema entry. *)
Definition ParamSchema : Type := PyDict.t schema_entry.

(** [PARAMS_MAPPING]: canonical (possibly dotted) path -> externally
    facing name. *)
Definition ParamMapping : Type := PyDict.t string.

(* ===================================================================== *)
(** ** [_get_params] *)
(* ===================================================================== *)

(** [{v: k for k, v in constants.PARAMS_MAPPING.items()}]: a later item
    with the same value replaces the earlier one. *)
Definition inv_params_mapping (PARAMS_MAPPING : ParamMapping)
  : PyDict.t string :=
  fold_left (fun inv kv => PyDict.setitem inv (snd kv) (fst kv))
            PARAMS_MAPPING [].

(** [arg_, subarg_ = arg_.split(".")]: unpacking anything but two pieces
    raises [ValueError]. *)
Definition split_pair (path : string) : result (string * string) :=
  match PyStr.split "." path with
  | [g; f] => Ok (g, f)
  | _ => Raise ValueError
  end.

(** [params[arg_][subarg_] = value], executed after the [if arg_ not in
    params] initialisation.  Item assignment on a stored argument value
    (which is never a dictionary) raises [TypeError]. *)
Definition setitem_nested (params : Params) (g f : string) (value : pyval)
  : result Params :=
  match PyDict.getitem params g with
  | Some (Group d) =>
      Ok (PyDict.setitem params g (Group (PyDict.setitem d f value)))
  | Some (Leaf _) => Raise TypeError
  | None => Raise (KeyError g)
  end.

(** The body of the loop [for arg in args.__dict__], lines 37 to 49;
    [value] is [getattr(args, arg)]. *)
Definition get_params_body
    (PARAMS_SCHEMA : ParamSchema) (inv : PyDict.t string)
    (params : Params) (item : string * pyval) : result Params :=
  let '(arg, value) := item in
  if PyDict.contains PARAMS_SCHEMA arg && negb (is_None value) then
    Ok (PyDict.setitem params arg (Leaf value))
  else
    match PyDict.getitem inv arg with
    | Some arg_ =>
        if PyStr.contains "." arg_ then
          (gf <- split_pair arg_ ;;
           let '(g, f) := gf in
           let params1 :=
             if negb (PyDict.contains params g)
             then PyDict.setitem params g (Group [])
             else params in
           setitem_nested params1 g f value)%py
        else
          Ok (PyDict.setitem params arg_ (Leaf value))
    | None => Ok params
    end.

(** [_get_params(args)], with [args_dict] the namespace [args.__dict__]. *)
Definition _get_params
    (PARAMS_SCHEMA : ParamSchema) (PARAMS_MAPPING : ParamMapping)
    (args_dict : PyDict.t pyval) : result Params :=
  let params : Params := [] in
  let inv := inv_params_mapping PARAMS_MAPPING in
  for_each (get_params_body PARAMS_SCHEMA inv) args_dict params.

(* ===================================================================== *)
(** ** [main]: the arguments registered on the parser *)
(* ===================================================================== *)

(** One call of [parser.add_argument]: the positional names or flags, then
    the keywords [action], [nargs], [type], [default] and [help]; an absent
    keyword is [None]. *)
Record argument : Type := {
  name_or_flags : list string;
  action : option string;
  nargs : option string;
  arg_type : option pytype;
  arg_default : option entry;
  help : option string
}.

(** Lines 106 to 142: the arguments that do not depend on the tables.
    (The [version=] keyword of [--version] holds the installed package
    version and is left out.) *)
Definition fixed_arguments : list argument :=
  [ {| name_or_flags := ["media_file"]; action := None; nargs := Some "+";
       arg_type := Some TStr; arg_default := None;
       help := Some
         "The path of the media file or a list of files separated by space" |};
    {| name_or_flags := ["-m"; "--model"]; action := None; nargs := None;
       arg_type := Some TStr; arg_default := Some (Leaf (PStr "tiny"));
       help := Some "Path to the `ggml` model, or just the model name" |};
    {| name_or_flags := ["--version"]; action := Some "version";
       nargs := None; arg_type := None; arg_default := None; help := None |};
    {| name_or_flags := ["--processors"]; action := None; nargs := None;
       arg_type := Some TInt; arg_default := Some (Leaf (PInt 1));
       help := Some "number of processors to use during computation" |};
    {| name_or_flags := ["-otxt"; "--output-txt"];
       action := Some "store_true"; nargs := None; arg_type := None;
       arg_default := None; help := Some "output result in a text file" |};
    {| name_or_flags := ["-ovtt"; "--output-vtt"];
       action := Some "store_true"; nargs := None; arg_type := None;
       arg_default := None; help := Some "output result in a vtt file" |};
    {| name_or_flags := ["-osrt"; "--output-srt"];
       action := Some "store_true"; nargs := None; arg_type := None;
       arg_default := None; help := Some "output result in a srt file" |};
    {| name_or_flags := ["-ocsv"; "--output-csv"];
       action := Some "store_true"; nargs := None; arg_type := None;
       arg_default := None; help := Some "output result in a csv file" |} ].

(** [f"--{name.replace('_', '-')}"] *)
Definition flag_of (name : string) : string :=
  ("--" ++ PyStr.replace "_" "-" name)%string.

(** [if map_val:] for the result of [PARAMS_MAPPING.get(map_key)]: [None]
    and the empty string are false. *)
Definition truthy_name (map_val : option string) : bool :=
  match map_val with
  | None => false
  | Some EmptyString => false
  | Some _ => true
  end.

(** Lines 151 to 160: the body of [for dft_key, dft_val in
    default_.items()], as the list of [add_argument] calls it makes. *)
Definition subkey_arguments (PARAMS_MAPPING : ParamMapping) (param : string)
    (item : string * pyval) : list argument :=
  let '(dft_key, dft_val) := item in
  let map_key := (param ++ "." ++ dft_key)%string in
  let map_val := PyDict.getitem PARAMS_MAPPING map_key in
  if truthy_name map_val then
    match map_val with
    | Some name =>
        [ {| name_or_flags := [flag_of name]; action := None; nargs := None;
             arg_type := Some (type_of dft_val);
             arg_default := Some (Leaf dft_val);
             help := Some map_key |} ]
    | None => []
    end
  else [].

(** Lines 146 to 175: the body of [for param in constants.PARAMS_SCHEMA].
    [default_.items()] on a default that is not a dictionary raises
    [AttributeError]. *)
Definition schema_arguments (PARAMS_MAPPING : ParamMapping)
    (item : string * schema_entry) : result (list argument) :=
  let '(param, param_fields) := item in
  if is_dict (type_ param_fields) then
    match default_ param_fields with
    | Group items =>
        Ok (flat_map (subkey_arguments PARAMS_MAPPING param) items)
    | Leaf _ => Raise AttributeError
    end
  else
    match PyDict.getitem PARAMS_MAPPING param with
    | Some mapped_param =>
        Ok [ {| name_or_flags := [flag_of mapped_param]; action := None;
                nargs := None; arg_type := Some (type_ param_fields);
                arg_default := Some (default_ param_fields);
                help := Some (descr_ param_fields) |} ]
    | None =>
        Ok [ {| name_or_flags := [flag_of param]; action := None;
                nargs := None; arg_type := Some (type_ param_fields);
                arg_default := Some (default_ param_fields);
                help := Some (descr_ param_fields) |} ]
    end.

(** The option strings that [argparse.ArgumentParser(...)] of line 104
    registers by itself: those of its help option. *)
Definition help_option_strings : list string := ["-h"; "--help"].

(** [name[0] in parser.prefix_chars], for a name that is not empty. *)
Definition starts_with_hyphen (name : string) : bool :=
  match name with
  | String c _ => Ascii.eqb c "-"
  | EmptyString => false
  end.

(** A long option string: a second character that is a hyphen too. *)
Definition is_long_option (name : string) : bool :=
  match name with
  | String _ (String c _) => Ascii.eqb c "-"
  | _ => false
  end.

(** The option strings of an argument; an argument with a single name
    that does not start with a hyphen is positional and has none. *)
Definition option_strings (a : argument) : list string :=
  match name_or_flags a with
  | [name] => if starts_with_hyphen name then [name] else []
  | names => names
  end.

(** The option strings that the parser knows once the calls [parser]
    have been made. *)
Definition registered (parser : list argument) : list string :=
  help_option_strings ++ flat_map option_strings parser.

(** The check that argparse makes on each option string: indexing the
    empty string raises [IndexError], a string that does not start with
    a hyphen raises [ValueError]. *)
Definition check_option_string (_ : unit) (name : string) : result unit :=
  match name with
  | EmptyString => Raise IndexError
  | String c _ => if Ascii.eqb c "-" then Ok tt else Raise ValueError
  end.

(** The option string from which argparse derives the destination: the
    first long one, or else the first one. *)
Definition dest_option_string (names : list string) : string :=
  match find is_long_option names with
  | Some name => name
  | None => hd EmptyString names
  end.

(** [parser.add_argument(...)] of argparse (Python 3.11), for the calls
    that [parser] stands for so far: a positional argument is appended;
    an optional argument raises [ValueError] when nothing is left of its
    destination option string once the leading hyphens are stripped
    ("dest= is required") and [ArgumentError] when one of its option
    strings is registered already (the parser resolves conflicts by
    error); otherwise it is appended.  The keywords are taken as
    argparse accepts them: [main] passes the action names [version] and
    [store_true], [nargs="+"] and types that are callable. *)
Definition add_argument (parser : list argument) (a : argument)
  : result (list argument) :=
  match name_or_flags a with
  | [] => Raise TypeError
  | [EmptyString] => Raise IndexError
  | names =>
      match option_strings a with
      | [] => Ok (parser ++ [a])
      | _ :: _ =>
          (_ <- for_each check_option_string names tt ;;
           if String.eqb (PyStr.lstrip "-" (dest_option_string names)) ""
           then Raise ValueError
           else if existsb (fun name =>
                              existsb (String.eqb name) (registered parser))
                           names
           then Raise ArgumentError
           else Ok (parser ++ [a]))%py
      end
  end.

(** The [add_argument] calls of [main], in order, up to line 175: the
    fixed ones, then those of each schema entry. *)
Definition main_arguments (PARAMS_SCHEMA : ParamSchema)
    (PARAMS_MAPPING : ParamMapping) : result (list argument) :=
  (parser <- for_each add_argument fixed_arguments [] ;;
   for_each
     (fun parser item =>
        added <- schema_arguments PARAMS_MAPPING item ;;
        for_each add_argument added parser)
     PARAMS_SCHEMA parser)%py.

(** The long flags registered for the schema: what follows the fixed
    arguments. *)
Definition schema_flags (PARAMS_SCHEMA : ParamSchema)
    (PARAMS_MAPPING : ParamMapping) : result (list string) :=
  (parser <- main_arguments PARAMS_SCHEMA PARAMS_MAPPING ;;
   Ok (flat_map name_or_flags (skipn (length fixed_arguments) parser)))%py.

(* ===================================================================== *)
(** ** The engine and the writers *)
(* ===================================================================== *)

(** Modelled from the spec: the class [Segment] of [pywhispercpp.model] is
    not part of the sources at hand; a transcript segment is a start time,
    an end time and a text.  The loop only tests a list of segments for
    emptiness and passes the segments on. *)
Record Segment : Type := {
  t0 : Z;
  t1 : Z;
  text : string
}.

(** The operations of [pywhispercpp.model.Model] that [run] uses, over the
    state [M] of a model object.  The constructor and the two calls of the
    [try] block may raise; a call returns the new state of the object. *)
Record Model (M : Type) : Type := {
  Model_init : string -> Params -> result M;
  get_params_n_threads : M -> pyval;
  system_info : M -> string;
  transcribe : M -> string -> option Z -> M * result (list Segment);
  print_timings : M -> M * result unit
}.

(** The writers of [pywhispercpp.utils]: segments and source path to the
    path of the file written. *)
Module utils.
Record t : Type := {
  output_txt : list Segment -> string -> string;
  output_vtt : list Segment -> string -> string;
  output_srt : list Segment -> string -> string;
  output_csv : list Segment -> string -> string
}.
End utils.

(* ===================================================================== *)
(** ** [run] *)
(* ===================================================================== *)

(** The namespace returned by [parse_known_args]: the attributes that
    [run] reads, with the types the parser gives them, and the attributes
    of the schema flags. *)
Record Namespace : Type := {
  media_file : list string;
  model : string;
  processors : option Z;
  output_txt : bool;
  output_vtt : bool;
  output_srt : bool;
  output_csv : bool;
  schema_attrs : PyDict.t pyval
}.

Definition of_option_int (o : option Z) : pyval :=
  match o with Some z => PInt z | None => PNone end.

(** [args.__dict__], in the order in which [main] registers the
    arguments. *)
Definition args_dict (args : Namespace) : PyDict.t pyval :=
  [ ("media_file", PList (media_file args));
    ("model", PStr (model args));
    ("processors", of_option_int (processors args));
    ("output_txt", PBool (output_txt args));
    ("output_vtt", PBool (output_vtt args));
    ("output_srt", PBool (output_srt args));
    ("output_csv", PBool (output_csv args)) ] ++ schema_attrs args.

(** [int(args.processors) if args.processors else None] *)
Definition n_processors (args : Namespace) : option Z :=
  match processors args with
  | Some z => if Z.eqb z 0 then None else Some z
  | None => None
  end.

Inductive format : Type := TXT | VTT | SRT | CSV.

Inductive level : Type := INFO | ERROR.

(** The messages of the logger calls of [run], one constructor per format
    string, with the values that are interpolated. *)
Inductive message : Type :=
| RunningWithModel (model : string)
| RunningWithParams (params : Params)
| SystemInfo (n_threads : pyval) (processors : option Z) (other : string)
| ProcessingFile (file : string)
| ManuallyStopped
| ErrorWhileProcessing (file : string) (e : exn)
| SavingResult (fmt : format)
| FileSaved (fmt : format) (path : string)
| SegmentLine (i : nat) (seg : Segment).

(** What [run] does to the outside, in order: a logger call, a call of the
    engine with its outcome, a call of a writer with the path returned. *)
Inductive event : Type :=
| Log (lvl : level) (msg : message)
| CallTranscribe (file : string) (n : option Z)
    (outcome : result (list Segment))
| CallPrintTimings (outcome : result unit)
| CallOutput (fmt : format) (segs : list Segment) (file : string)
    (path : string).

(** [enumerate(xs)] *)
Definition enumerate {A} (xs : list A) : list (nat * A) :=
  combine (seq 0 (length xs)) xs.

Definition writer (u : utils.t) (fmt : format)
  : list Segment -> string -> string :=
  match fmt with
  | TXT => utils.output_txt u
  | VTT => utils.output_vtt u
  | SRT => utils.output_srt u
  | CSV => utils.output_csv u
  end.

(** The three statements under each [if args.output_...]. *)
Definition save_as (u : utils.t) (fmt : format) (segs : list Segment)
    (file : string) : list event :=
  let path := writer u fmt segs file in
  [ Log INFO (SavingResult fmt);
    CallOutput fmt segs file path;
    Log INFO (FileSaved fmt path) ].

(** Lines 81 to 99, the block under [if segs:]. *)
Definition output_stuff (u : utils.t) (args : Namespace)
    (segs : list Segment) (file : string) : list event :=
  (if output_txt args then save_as u TXT segs file else []) ++
  (if output_vtt args then save_as u VTT segs file else []) ++
  (if output_srt args then save_as u SRT segs file else []) ++
  (if output_csv args then save_as u CSV segs file
   else map (fun p => Log INFO (SegmentLine (fst p) (snd p)))
            (enumerate segs)).

(** The local variables of [run] that the loop reads and writes: the model
    object and [segs], which is unbound ([None]) until the first
    assignment of line 68 completes. *)
Record frame (M : Type) : Type := {
  m : M;
  segs : option (list Segment)
}.

(** How a statement ends: normally, by [break], or with an exception in
    flight. *)
Inductive control : Type :=
| Next
| Break
| Propagate (e : exn).

(** Lines 67 to 72, the [try] block: the new frame, what was done, and the
    exception raised, if any.  [segs] is assigned only when [transcribe]
    returns. *)
Definition try_block {M} (ops : Model M) (args : Namespace) (fr : frame M)
    (file : string) : frame M * list event * option exn :=
  let n := n_processors args in
  let '(m1, r) := transcribe ops (m fr) file n in
  let called := [Log INFO (ProcessingFile file); CallTranscribe file n r] in
  match r with
  | Raise e => ({| m := m1; segs := segs fr |}, called, Some e)
  | Ok new_segs =>
      let '(m2, r2) := print_timings ops m1 in
      ({| m := m2; segs := Some new_segs |},
       called ++ [CallPrintTimings r2],
       match r2 with Ok _ => None | Raise e => Some e end)
  end.

(** Lines 73 to 77, the two [except] clauses, for the exception raised by
    the [try] block. *)
Definition except_clauses (file : string) (raised : option exn)
  : list event * control :=
  match raised with
  | None => ([], Next)
  | Some KeyboardInterrupt => ([Log INFO ManuallyStopped], Break)
  | Some e =>
      if is_Exception e
      then ([Log ERROR (ErrorWhileProcessing file e)], Next)
      else ([], Propagate e)
  end.

(** Lines 79 to 99, [if segs:] with its block; an empty list is false. *)
Definition if_segs (u : utils.t) (args : Namespace) (segs : list Segment)
    (file : string) : list event :=
  match segs with
  | [] => []
  | _ :: _ => output_stuff u args segs file
  end.

(** Lines 78 to 99, the [finally] block.  Reading the unbound [segs]
    raises [UnboundLocalError]. *)
Definition finally_block (u : utils.t) (args : Namespace)
    (segs : option (list Segment)) (file : string) : result (list event) :=
  match segs with
  | None => Raise (UnboundLocalError "segs")
  | Some bound => Ok (if_segs u args bound file)
  end.

(** One iteration of [for file in args.media_file].  An exception raised
    by the [finally] block replaces whatever was pending. *)
Definition loop_body {M} (ops : Model M) (u : utils.t) (args : Namespace)
    (fr : frame M) (file : string) : frame M * list event * control :=
  let '(fr1, tried, raised) := try_block ops args fr file in
  let '(handled, pending) := except_clauses file raised in
  match finally_block u args (segs fr1) file with
  | Ok dispatched => (fr1, tried ++ handled ++ dispatched, pending)
  | Raise e => (fr1, tried ++ handled, Propagate e)
  end.

(** The loop of lines 65 to 99.  The result [Next] means that the list of
    files was exhausted. *)
Fixpoint for_loop {M} (ops : Model M) (u : utils.t) (args : Namespace)
    (fr : frame M) (files : list string) : frame M * list event * control :=
  match files with
  | [] => (fr, [], Next)
  | file :: files' =>
      let '(fr1, done, c) := loop_body ops u args fr file in
      match c with
      | Next =>
          let '(fr2, later, c2) := for_loop ops u args fr1 files' in
          (fr2, done ++ later, c2)
      | _ => (fr1, done, c)
      end
  end.

(** [run(args)]: everything done, and how the call ends. *)
Definition run {M} (ops : Model M) (u : utils.t)
    (PARAMS_SCHEMA : ParamSchema) (PARAMS_MAPPING : ParamMapping)
    (args : Namespace) : list event * result unit :=
  let log1 := [Log INFO (RunningWithModel (model args))] in
  match _get_params PARAMS_SCHEMA PARAMS_MAPPING (args_dict args) with
  | Raise e => (log1, Raise e)
  | Ok params =>
      let log2 := log1 ++ [Log INFO (RunningWithParams params)] in
      match Model_init ops (model args) params with
      | Raise e => (log2, Raise e)
      | Ok m0 =>
          let log3 :=
            log2 ++ [Log INFO (SystemInfo (get_params_n_threads ops m0)
                                          (processors args)
                                          (system_info ops m0))] in
          let '(_, trace, c) :=
            for_loop ops u args {| m := m0; segs := None |}
                     (media_file args) in
          (log3 ++ trace,
           match c with Propagate e => Raise e | _ => Ok tt end)
      end
  end.

(* ===================================================================== *)
(** ** Reading a trace *)
(* ===================================================================== *)

(** The files on which [m.transcribe] was invoked, in order. *)
Definition transcribed_files (trace : list event) : list string :=
  flat_map (fun ev => match ev with
                      | CallTranscribe file _ _ => [file]
                      | _ => []
                      end) trace.

(** The per-segment console lines, as (index, segment). *)
Definition segment_lines (trace : list event) : list (nat * Segment) :=
  flat_map (fun ev => match ev with
                      | Log INFO (SegmentLine i seg) => [(i, seg)]
                      | _ => []
                      end) trace.

(** The writer calls: format, segments written, source path, path
    returned. *)
Definition written (trace : list event)
  : list (format * list Segment * string * string) :=
  flat_map (fun ev => match ev with
                      | CallOutput fmt segs file path =>
                          [(fmt, segs, file, path)]
                      | _ => []
                      end) trace.

(** The state machine of a file in the specification:
    PENDING -> PROCESSING -> SUCCEEDED or FAILED. *)
Inductive status : Type := PENDING | PROCESSING | SUCCEEDED | FAILED.

(** The status of each file the loop entered, read off the trace: a file
    is PROCESSING from its [Processing file] line on, SUCCEEDED once
    [print_timings] has returned for it, FAILED once its error line is
    logged.  [cur] is the file being followed. *)
Fixpoint batch_results_from (cur : option (string * status))
    (trace : list event) : list (string * status) :=
  let flush := match cur with Some fs => [fs] | None => [] end in
  let mark st :=
    match cur with Some (f, _) => Some (f, st) | None => None end in
  match trace with
  | [] => flush
  | Log INFO (ProcessingFile file) :: trace' =>
      flush ++ batch_results_from (Some (file, PROCESSING)) trace'
  | CallPrintTimings (Ok _) :: trace' =>
      batch_results_from (mark SUCCEEDED) trace'
  | Log ERROR (ErrorWhileProcessing _ _) :: trace' =>
      batch_results_from (mark FAILED) trace'
  | _ :: trace' => batch_results_from cur trace'
  end.

Definition batch_results (trace : list event) : list (string * status) :=
  batch_results_from None trace.

(** [args.output_txt], [args.output_vtt], [args.output_srt] and
    [args.output_csv] by format. *)
Definition output_flag (args : Namespace) (fmt : format) : bool :=
  match fmt with
  | TXT => output_txt args
  | VTT => output_vtt args
  | SRT => output_srt args
  | CSV => output_csv args
  end.

(** The formats whose file output is requested, in dispatch order. *)
Definition requested (args : Namespace) : list format :=
  filter (output_flag args) [TXT; VTT; SRT; CSV].

(* ===================================================================== *)
(** ** The properties of the specification *)
(* ===================================================================== *)

(** [value] sits at [result[g][f]]. *)
Definition stored_nested_at (r : result Params) (g f : string)
    (value : pyval) : Prop :=
  exists params d, r = Ok params /\
                   PyDict.getitem params g = Some (Group d) /\
                   PyDict.getitem d f = Some value.

(** The resolver algorithm, for the argument processed after the arguments
    [seen] have produced [params], read for every argument set and every
    pair of tables: a schema key with a non-null value is assigned
    directly; otherwise a mapped name goes through the inverse mapping, a
    dotted path is split into group and field, the group is created when
    absent and the value lands at [result[group][field]]; a dotless path
    is assigned directly. *)
Definition resolver_algorithm_as_stated
    (schema : ParamSchema) (mapping : ParamMapping) : Prop :=
  forall (seen : PyDict.t pyval) (params : Params)
         (arg : string) (value : pyval),
    _get_params schema mapping seen = Ok params ->
    let r := _get_params schema mapping (seen ++ [(arg, value)]) in
    (PyDict.contains schema arg = true -> value <> PNone ->
     r = Ok (PyDict.setitem params arg (Leaf value)))
    /\
    (~ (PyDict.contains schema arg = true /\ value <> PNone) ->
     forall path,
       PyDict.getitem (inv_params_mapping mapping) arg = Some path ->
       (PyStr.contains "." path = true ->
        exists g f,
          PyStr.split "." path = [g; f] /\
          (PyDict.getitem params g = None ->
           r = Ok (PyDict.setitem params g (Group [(f, value)]))) /\
          stored_nested_at r g f value)
       /\
       (PyStr.contains "." path = false ->
        r = Ok (PyDict.setitem params path (Leaf value)))).

(** Schema precedence read for every argument: a name that is both a
    schema key and a mapped name is assigned directly under its own
    name. *)
Definition schema_precedence_as_stated
    (schema : ParamSchema) (mapping : ParamMapping) : Prop :=
  forall (seen : PyDict.t pyval) (params : Params)
         (arg : string) (value : pyval) (path : string),
    _get_params schema mapping seen = Ok params ->
    PyDict.contains schema arg = true ->
    PyDict.getitem (inv_params_mapping mapping) arg = Some path ->
    _get_params schema mapping (seen ++ [(arg, value)])
    = Ok (PyDict.setitem params arg (Leaf value)).

(** The name a flag is derived from: the mapped name when the mapping has
    one, the canonical name otherwise. *)
Definition external_name (mapping : ParamMapping) (canonical : string)
  : string :=
  match PyDict.getitem mapping canonical with
  | Some mapped => mapped
  | None => canonical
  end.

(** Flag derivation as stated, for one schema entry and the flags
    registered for it: one flag for a plain entry, one flag per default
    sub-key for a dictionary typed entry. *)
Definition one_flag_per_subkey (mapping : ParamMapping)
    (item : string * schema_entry) (flags : list string) : Prop :=
  let '(param, fields) := item in
  if is_dict (type_ fields) then
    match default_ fields with
    | Group items => length flags = length items
    | Leaf _ => True
    end
  else flags = [flag_of (external_name mapping param)].

Definition flag_derivation_as_stated
    (schema : ParamSchema) (mapping : ParamMapping) : Prop :=
  exists per_entry : list (list string),
    schema_flags schema mapping = Ok (concat per_entry) /\
    Forall2 (one_flag_per_subkey mapping) schema per_entry.

(** The mapped names of the sub-keys of a dictionary typed parameter that
    have a non-empty one, in the order of the sub-keys. *)
Definition mapped_subkeys (mapping : ParamMapping) (param : string)
    (items : PyDict.t pyval) : list string :=
  flat_map (fun kv =>
              match PyDict.getitem mapping (param ++ "." ++ fst kv)%string with
              | Some (String a rest) => [String a rest]
              | _ => []
              end) items.

(** Flag derivation as the code has it: a dictionary typed entry gets one
    flag per sub-key with a non-empty mapped name. *)
Definition one_flag_per_mapped_subkey (mapping : ParamMapping)
    (item : string * schema_entry) (flags : list string) : Prop :=
  let '(param, fields) := item in
  if is_dict (type_ fields) then
    match default_ fields with
    | Group items => flags = map flag_of (mapped_subkeys mapping param items)
    | Leaf _ => False
    end
  else flags = [flag_of (external_name mapping param)].

(** The flags that [main] derives for one schema entry. *)
Definition derived_flags (mapping : ParamMapping)
    (item : string * schema_entry) : list string :=
  let '(param, fields) := item in
  if is_dict (type_ fields) then
    match default_ fields with
    | Group items => map flag_of (mapped_subkeys mapping param items)
    | Leaf _ => []
    end
  else [flag_of (external_name mapping param)].

(** Something is left of a flag once its leading hyphens are stripped. *)
Definition has_dest (flag : string) : bool :=
  negb (String.eqb (PyStr.lstrip "-" flag) "").

(** Failure isolation read for every exception other than
    [KeyboardInterrupt]: three files, the second raises, the first and
    the third succeed. *)
Definition failure_isolation_as_stated {M} (ops : Model M) (u : utils.t)
    (schema : ParamSchema) (mapping : ParamMapping) (args : Namespace)
  : Prop :=
  forall params m0 f1 f2 f3 s1 s3 e m1 m1' m2 m3 m3',
    _get_params schema mapping (args_dict args) = Ok params ->
    Model_init ops (model args) params = Ok m0 ->
    media_file args = [f1; f2; f3] ->
    transcribe ops m0 f1 (n_processors args) = (m1, Ok s1) ->
    print_timings ops m1 = (m1', Ok tt) ->
    transcribe ops m1' f2 (n_processors args) = (m2, Raise e) ->
    e <> KeyboardInterrupt ->
    transcribe ops m2 f3 (n_processors args) = (m3, Ok s3) ->
    print_timings ops m3 = (m3', Ok tt) ->
    snd (run ops u schema mapping args) = Ok tt
    /\ transcribed_files (fst (run ops u schema mapping args))
       = [f1; f2; f3]
    /\ batch_results (fst (run ops u schema mapping args))
       = [(f1, SUCCEEDED); (f2, FAILED); (f3, SUCCEEDED)].

(** Stale re-emission read for every failure of the processing of a
    file: the [try] block of the file before completed with non-empty
    segments [prev], the [try] block of the file raises something other
    than [KeyboardInterrupt], and the dispatch of the file is on
    [prev]. *)
Definition stale_reemission_as_stated {M} (ops : Model M) (u : utils.t)
    (args : Namespace) : Prop :=
  forall fr prev_file file fr1 tried prev e fr2 done c,
    try_block ops args fr prev_file = (fr1, tried, None) ->
    segs fr1 = Some prev ->
    prev <> [] ->
    snd (try_block ops args fr1 file) = Some e ->
    e <> KeyboardInterrupt ->
    loop_body ops u args fr1 file = (fr2, done, c) ->
    written done
    = map (fun fmt => (fmt, prev, file, writer u fmt prev file))
          (requested args).

(** Stale output on interrupt read for every interrupt and every
    earlier file: a file of the batch worked off so far returned the
    non-empty segments [prev], [KeyboardInterrupt] is raised in the
    [try] block of the next file, and the dispatch of that file is on
    [prev]. *)
Definition interrupt_stale_output_as_stated {M} (ops : Model M)
    (u : utils.t) (args : Namespace) : Prop :=
  forall fr0 before file fr1 tr1 earlier prev fr2 done c,
    segs fr0 = None ->
    for_loop ops u args fr0 before = (fr1, tr1, Next) ->
    In (CallTranscribe earlier (n_processors args) (Ok prev)) tr1 ->
    prev <> [] ->
    snd (try_block ops args fr1 file) = Some KeyboardInterrupt ->
    loop_body ops u args fr1 file = (fr2, done, c) ->
    written done
    = map (fun fmt => (fmt, prev, file, writer u fmt prev file))
          (requested args).

(** Every dictionary typed entry of the schema has a dictionary as its
    default. *)
Definition dict_defaults (schema : ParamSchema) : Prop :=
  forall param fields,
    In (param, fields) schema -> is_dict (type_ fields) = true ->
    exists items, default_ fields = Group items.

(* ===================================================================== *)
(** ** Concrete tables, engines and batches *)
(* ===================================================================== *)

Module Demo.

Definition plain (ty : pytype) (default : pyval) : schema_entry :=
  {| type_ := ty; descr_ := ""; default_ := Leaf default |}.

Definition nested (defaults : PyDict.t pyval) : schema_entry :=
  {| type_ := TDict; descr_ := ""; default_ := Group defaults |}.

(** A schema with two plain parameters and one dictionary typed
    parameter, and a mapping for one plain parameter and one sub-key. *)
Definition schema : ParamSchema :=
  [ ("n_threads", plain TInt PNone);
    ("language", plain TStr (PStr ""));
    ("vad", nested [("speed_up", PBool false); ("threshold", PInt 0)]) ].

Definition mapping : ParamMapping :=
  [ ("language", "lang"); ("vad.speed_up", "speed_up") ].

(** A schema whose plain key [vad] is also the group of a mapped path. *)
Definition group_schema : ParamSchema := [ ("vad", plain TInt PNone) ].
Definition group_mapping : ParamMapping := [ ("vad.speed_up", "speed_up") ].

(** A schema key that is also the mapped name of a dotted path. *)
Definition both_schema : ParamSchema := [ ("language", plain TStr PNone) ].
Definition both_mapping : ParamMapping := [ ("vad.language", "language") ].

(** A dictionary typed parameter whose only sub-key has no mapped
    name. *)
Definition greedy_schema : ParamSchema :=
  [ ("greedy", nested [("best_of", PInt (-1))]) ].
Definition greedy_mapping : ParamMapping := [].

(** An engine that plays a script: each call of [transcribe] consumes
    the next outcome; [print_timings] always returns. *)
Definition scripted (script : list (result (list Segment)))
  : Model (list (result (list Segment))) :=
  {| Model_init := fun _ _ => Ok script;
     get_params_n_threads := fun _ => PInt 4;
     system_info := fun _ => "";
     transcribe := fun st _ _ =>
       match st with
       | [] => ([], Raise (EngineError "end of script"))
       | r :: st' => (st', r)
       end;
     print_timings := fun st => (st, Ok tt) |}.

(** Writers that return the source path with the extension appended. *)
Definition writers : utils.t :=
  {| utils.output_txt := fun _ file => (file ++ ".txt")%string;
     utils.output_vtt := fun _ file => (file ++ ".vtt")%string;
     utils.output_srt := fun _ file => (file ++ ".srt")%string;
     utils.output_csv := fun _ file => (file ++ ".csv")%string |}.

Definition hello : list Segment :=
  [ {| t0 := 0; t1 := 120; text := "hello" |};
    {| t0 := 120; t1 := 250; text := "world" |} ].

Definition bye : list Segment := [ {| t0 := 0; t1 := 80; text := "bye" |} ].

(** Three scripts: the second file fails, the first file fails, the
    second file is interrupted. *)
Definition second_fails : list (result (list Segment)) :=
  [Ok hello; Raise (EngineError "bad file"); Ok bye].
Definition first_fails : list (result (list Segment)) :=
  [Raise (EngineError "bad file"); Ok bye].
Definition second_interrupted : list (result (list Segment)) :=
  [Ok hello; Raise KeyboardInterrupt; Ok bye].

Definition abc : list string := ["a.wav"; "b.wav"; "c.wav"].

Definition args (files : list string) (txt csv : bool) : Namespace :=
  {| media_file := files; model := "tiny"; processors := Some 1%Z;
     output_txt := txt; output_vtt := false; output_srt := false;
     output_csv := csv; schema_attrs := [("speed_up", PBool true)] |}.

(** Tables in which [beam_size] and [patience] are fields of one group
    and [n_threads] is a plain parameter without mapped name. *)
Definition beam_schema : ParamSchema :=
  [ ("n_threads", plain TInt PNone);
    ("beam_search", nested [("beam_size", PInt 5); ("patience", PInt 1)]) ].

Definition beam_mapping : ParamMapping :=
  [ ("beam_search.beam_size", "beam_size");
    ("beam_search.patience", "patience") ].

Definition beam_args : PyDict.t pyval :=
  [ ("n_threads", PInt 2); ("beam_size", PInt 8); ("verbose", PBool true);
    ("patience", PInt 3) ].

(** An engine that returns the same segments for every file. *)
Definition steady (found : list Segment) : Model unit :=
  {| Model_init := fun _ _ => Ok tt;
     get_params_n_threads := fun _ => PInt 4;
     system_info := fun _ => "";
     transcribe := fun st _ _ => (st, Ok found);
     print_timings := fun st => (st, Ok tt) |}.

(** Three more scripts: the second file ends the interpreter, the
    second file has no segments and the third is interrupted. *)
Definition second_exits : list (result (list Segment)) :=
  [Ok hello; Raise SystemExit; Ok bye].
Definition empty_then_interrupted : list (result (list Segment)) :=
  [Ok hello; Ok []; Raise KeyboardInterrupt].

(** An engine that counts its [transcribe] calls, returns [hello] for
    the first and [bye] for the others, and whose [print_timings] raises
    after the second. *)
Definition timings_fail : Model nat :=
  {| Model_init := fun _ _ => Ok 0;
     get_params_n_threads := fun _ => PInt 4;
     system_info := fun _ => "";
     transcribe := fun st _ _ =>
       (S st, Ok (if Nat.eqb st 0 then hello else bye));
     print_timings := fun st =>
       (st, if Nat.eqb st 2 then Raise (EngineError "no timings")
            else Ok tt) |}.

(** Tables whose flags collide with an option of [main], with each
    other, or have nothing after the hyphens. *)
Definition model_schema : ParamSchema := [ ("model", plain TStr PNone) ].
Definition twice_schema : ParamSchema :=
  [ ("n_threads", plain TInt PNone); ("threads", plain TInt PNone) ].
Definition twice_mapping : ParamMapping := [ ("threads", "n_threads") ].
Definition blank_schema : ParamSchema := [ ("language", plain TStr PNone) ].
Definition blank_mapping : ParamMapping := [ ("language", "") ].

(** An engine that counts its calls and fails on every odd one. *)
Definition flaky : Model nat :=
  {| Model_init := fun _ _ => Ok 0;
     get_params_n_threads := fun _ => PInt 4;
     system_info := fun _ => "";
     transcribe := fun st _ _ =>
       (S st, if Nat.even st then Ok hello
              else Raise (EngineError "bad file"));
     print_timings := fun st => (st, Ok tt) |}.

End Demo.

(* ===================================================================== *)
(** ** Where an argument goes *)
(* ===================================================================== *)

(** The branch that the loop body of [_get_params] takes for an argument:
    an assignment [params[key] = value], a store
    [params[g][f] = value], the failing unpacking of a path that does not
    split in two, or [pass]. *)
Inductive target : Type :=
| Direct (key : string)
| Nested (g f : string)
| Unsplittable
| Ignored.

Definition target_of (PARAMS_SCHEMA : ParamSchema) (inv : PyDict.t string)
    (item : string * pyval) : target :=
  let '(arg, value) := item in
  if PyDict.contains PARAMS_SCHEMA arg && negb (is_None value) then Direct arg
  else
    match PyDict.getitem inv arg with
    | Some arg_ =>
        if PyStr.contains "." arg_ then
          match PyStr.split "." arg_ with
          | [g; f] => Nested g f
          | _ => Unsplittable
          end
        else Direct arg_
    | None => Ignored
    end.

(** An earlier and a later target that use the same place: the later
    argument replaces the value of the earlier one, or fails on it. *)
Definition interferes (earlier later : target) : bool :=
  match earlier, later with
  | Direct k, Direct k' => String.eqb k k'
  | Direct k, Nested g _ => String.eqb k g
  | Nested g _, Direct k => String.eqb g k
  | Nested g f, Nested g' f' => String.eqb g g' && String.eqb f f'
  | _, _ => false
  end.

(** An earlier assignment [params[k] = value] followed by a store into
    [params[k][f]]. *)
Definition clashes (earlier later : target) : bool :=
  match earlier, later with
  | Direct k, Nested g _ => String.eqb k g
  | _, _ => false
  end.

(** [params[key]], respectively [params[g][f]], when it is there. *)
Definition read_target (params : Params) (t : target) : option pyval :=
  match t with
  | Direct key =>
      match PyDict.getitem params key with
      | Some (Leaf v) => Some v
      | _ => None
      end
  | Nested g f =>
      match PyDict.getitem params g with
      | Some (Group d) => PyDict.getitem d f
      | _ => None
      end
  | _ => None
  end.

(** The attributes of the namespace that [main] itself defines. *)
Definition cli_attributes : list string :=
  [ "media_file"; "model"; "processors"; "output_txt"; "output_vtt";
    "output_srt"; "output_csv" ].

(* ===================================================================== *)
(** ** Engines by what they raise *)
(* ===================================================================== *)

(** Neither call of the [try] block ever raises. *)
Definition never_raises {M} (ops : Model M) : Prop :=
  (forall st file k, exists st' found,
      transcribe ops st file k = (st', Ok found))
  /\ (forall st, exists st', print_timings ops st = (st', Ok tt)).

(** Whatever the calls of the [try] block raise is an [Exception]. *)
Definition raises_only_exceptions {M} (ops : Model M) : Prop :=
  (forall st file k st' e,
      transcribe ops st file k = (st', Raise e) -> is_Exception e = true)
  /\ (forall st st' e,
      print_timings ops st = (st', Raise e) -> is_Exception e = true).

(* ===================================================================== *)
(** ** [recording.py]: the constructor of [Recording] *)
(* ===================================================================== *)

Module recording.

(** A call [f(..., name=value, **extra)]: the keywords written out, then
    the items of [extra]; a keyword that [extra] repeats raises
    [TypeError] before the callee runs. *)
Definition keywords (explicit extra : Params) : result Params :=
  if existsb (fun kv => PyDict.contains explicit (fst kv)) extra
  then Raise TypeError
  else Ok (explicit ++ extra).

(** The attributes set by [__init__]. *)
Record Recording (M : Type) : Type := {
  duration : Z;
  sample_rate : Z;
  channels : Z;
  pwcpp_model : M
}.

(** [Recording.__init__(self, duration, model, **model_params)], lines 41
    to 45; [WHISPER_SAMPLE_RATE] is the constant of
    [pywhispercpp.constants]. *)
Definition __init__ {M} (ops : Model M) (WHISPER_SAMPLE_RATE : Z)
    (duration : Z) (model : string) (model_params : Params)
  : result (Recording M) :=
  (kwargs <- keywords [("print_realtime", Leaf (PBool true))] model_params ;;
   pwcpp_model <- Model_init ops model kwargs ;;
   Ok {| duration := duration;
         sample_rate := WHISPER_SAMPLE_RATE;
         channels := 1;
         pwcpp_model := pwcpp_model |})%py.

End recording.

(* ===================================================================== *)
(** ** Strings and dictionaries *)
(* ===================================================================== *)

Unset Implicit Arguments.

Lemma split_without_separator (sep : ascii) (s : string) :
  PyStr.contains sep s = false -> PyStr.split sep s = [s].
Proof.
  induction s as [|a s IH]; simpl; [reflexivity|].
  destruct (Ascii.eqb a sep); [discriminate|].
  intros H. rewrite (IH H). reflexivity.
Qed.

Lemma split_pair_contains (path g f : string) :
  PyStr.split "." path = [g; f] -> PyStr.contains "." path = true.
Proof.
  intros H. destruct (PyStr.contains "." path) eqn:E; [reflexivity|].
  rewrite (split_without_separator _ _ E) in H. discriminate.
Qed.

Lemma getitem_setitem_eq {V} (d : PyDict.t V) (k : string) (v : V) :
  PyDict.getitem (PyDict.setitem d k v) k = Some v.
Proof.
  induction d as [|[k' v'] d IH]; simpl.
  - rewrite String.eqb_refl. reflexivity.
  - destruct (String.eqb k' k) eqn:E; simpl; rewrite E; auto.
Qed.

Lemma setitem_setitem_eq {V} (d : PyDict.t V) (k : string) (v w : V) :
  PyDict.setitem (PyDict.setitem d k v) k w = PyDict.setitem d k w.
Proof.
  induction d as [|[k' v'] d IH]; simpl.
  - rewrite String.eqb_refl. reflexivity.
  - destruct (String.eqb k' k) eqn:E; simpl; rewrite E; [reflexivity|].
    rewrite IH. reflexivity.
Qed.

Lemma for_each_app {A S} (body : S -> A -> result S) (xs ys : list A) (s : S) :
  for_each body (xs ++ ys) s = bind (for_each body xs s) (for_each body ys).
Proof.
  revert s. induction xs as [|x xs IH]; intros s; simpl; [reflexivity|].
  destruct (body s x); simpl; auto.
Qed.

(* ===================================================================== *)
(** ** [_get_params] *)
(* ===================================================================== *)

Section Resolver.

Variable schema : ParamSchema.
Variable mapping : ParamMapping.

(** Processing one more argument is one more run of the loop body on
    the parameters accumulated so far. *)
Lemma get_params_snoc seen params item :
  _get_params schema mapping seen = Ok params ->
  _get_params schema mapping (seen ++ [item])
  = get_params_body schema (inv_params_mapping mapping) params item.
Proof.
  unfold _get_params. intros H. rewrite for_each_app, H. simpl.
  destruct (get_params_body _ _ params item); reflexivity.
Qed.

Lemma body_schema_key params arg value :
  PyDict.contains schema arg = true -> value <> PNone ->
  get_params_body schema (inv_params_mapping mapping) params (arg, value)
  = Ok (PyDict.setitem params arg (Leaf value)).
Proof.
  intros Hin Hv. unfold get_params_body. rewrite Hin.
  destruct value; try reflexivity. contradiction.
Qed.

Lemma body_not_schema_key arg value :
  ~ (PyDict.contains schema arg = true /\ value <> PNone) ->
  PyDict.contains schema arg && negb (is_None value) = false.
Proof.
  intros H. destruct (PyDict.contains schema arg); [|reflexivity].
  destruct value; simpl; try reflexivity;
    exfalso; apply H; split; solve [reflexivity | discriminate].
Qed.

Lemma body_unrecognized params arg value :
  PyDict.contains schema arg = false ->
  PyDict.getitem (inv_params_mapping mapping) arg = None ->
  get_params_body schema (inv_params_mapping mapping) params (arg, value)
  = Ok params.
Proof.
  intros Hs Hm. unfold get_params_body. rewrite Hs, Hm. reflexivity.
Qed.

(** C2 (amended).  For the argument processed after [seen] has produced
    [params]: a schema key with a non-null value is assigned directly
    at [result[arg]].  Otherwise, when the name is a mapped externally
    facing name, its canonical path is taken from the inverse mapping;
    a path with exactly one dot is split into group and field and,
    provided the entry at the group is not a plain argument value
    assigned earlier, the group is created as a nested mapping holding
    the field when it is absent, the field is set in the nested mapping
    when it is present, and in both cases the value sits at
    [result[group][field]]; a dotless path is assigned directly at
    [result[path]]. *)
Theorem resolver_algorithm seen params arg value :
  _get_params schema mapping seen = Ok params ->
  let r := _get_params schema mapping (seen ++ [(arg, value)]) in
  (PyDict.contains schema arg = true -> value <> PNone ->
   r = Ok (PyDict.setitem params arg (Leaf value)))
  /\
  (~ (PyDict.contains schema arg = true /\ value <> PNone) ->
   forall path,
     PyDict.getitem (inv_params_mapping mapping) arg = Some path ->
     (forall g f,
        PyStr.split "." path = [g; f] ->
        (forall v0, PyDict.getitem params g <> Some (Leaf v0)) ->
        (PyDict.getitem params g = None ->
         r = Ok (PyDict.setitem params g (Group [(f, value)]))) /\
        (forall d, PyDict.getitem params g = Some (Group d) ->
         r = Ok (PyDict.setitem params g
                   (Group (PyDict.setitem d f value)))) /\
        stored_nested_at r g f value)
     /\
     (PyStr.contains "." path = false ->
      r = Ok (PyDict.setitem params path (Leaf value)))).
Proof.
  intros Hseen r. subst r. erewrite get_params_snoc by exact Hseen. split.
  - intros Hin Hv. apply body_schema_key; assumption.
  - intros Hn path Hp.
    unfold get_params_body. rewrite body_not_schema_key by exact Hn.
    rewrite Hp. split.
    + intros g f Hsplit Hleaf.
      rewrite (split_pair_contains path g f Hsplit).
      unfold split_pair. rewrite Hsplit. simpl bind.
      unfold PyDict.contains, setitem_nested.
      destruct (PyDict.getitem params g) as [[v0|d]|] eqn:Eg; simpl.
      * exfalso. apply (Hleaf v0). reflexivity.
      * rewrite Eg. repeat split.
        -- discriminate.
        -- intros d' Hd. injection Hd as <-. reflexivity.
        -- exists (PyDict.setitem params g
                     (Group (PyDict.setitem d f value))),
                  (PyDict.setitem d f value).
           repeat split; apply getitem_setitem_eq.
      * rewrite getitem_setitem_eq, setitem_setitem_eq. simpl.
        repeat split.
        -- discriminate.
        -- exists (PyDict.setitem params g (Group [(f, value)])),
                  [(f, value)].
           repeat split; [apply getitem_setitem_eq|].
           simpl. rewrite String.eqb_refl. reflexivity.
    + intros Hdot. rewrite Hdot. reflexivity.
Qed.

(** C6 (amended).  An argument name that is both a canonical schema key
    and a mapped externally facing name, and whose value is not null,
    is resolved via the schema path only: it is assigned directly under
    its own name. *)
Theorem schema_precedence seen params arg value path :
  _get_params schema mapping seen = Ok params ->
  PyDict.contains schema arg = true ->
  PyDict.getitem (inv_params_mapping mapping) arg = Some path ->
  value <> PNone ->
  _get_params schema mapping (seen ++ [(arg, value)])
  = Ok (PyDict.setitem params arg (Leaf value)).
Proof.
  intros Hseen Hin _ Hv. erewrite get_params_snoc by exact Hseen.
  apply body_schema_key; assumption.
Qed.

(** C7.  An argument whose name is neither a canonical schema key nor a
    mapped externally facing name is inert: the resolver gives the same
    outcome with and without it, wherever it stands in the argument
    set. *)
Theorem unrecognized_arguments_inert before after arg value :
  PyDict.contains schema arg = false ->
  PyDict.getitem (inv_params_mapping mapping) arg = None ->
  _get_params schema mapping (before ++ (arg, value) :: after)
  = _get_params schema mapping (before ++ after).
Proof.
  intros Hs Hm. unfold _get_params. rewrite !for_each_app.
  destruct (for_each (get_params_body schema (inv_params_mapping mapping))
                     before []) as [params|e]; cbn [bind for_each];
    [|reflexivity].
  rewrite body_unrecognized by assumption. reflexivity.
Qed.

End Resolver.

(** C2, counterexample.  With the plain schema key [vad] given the value
    5 and the name [speed_up] mapped to [vad.speed_up], the assignment
    into [params["vad"]["speed_up"]] hits the integer stored at
    [params["vad"]]: the resolver raises [TypeError] and nothing is
    stored. *)
Lemma resolver_algorithm_group_clash :
  ~ resolver_algorithm_as_stated Demo.group_schema Demo.group_mapping.
Proof.
  intros H.
  destruct (H [("vad", PInt 5)] [("vad", Leaf (PInt 5))]
              "speed_up" (PBool true) eq_refl) as [_ Hmapped].
  assert (Hn : ~ (PyDict.contains Demo.group_schema "speed_up" = true
                  /\ PBool true <> PNone))
    by (intros [Hc _]; discriminate Hc).
  destruct (Hmapped Hn "vad.speed_up" eq_refl) as [Hdot _].
  destruct (Hdot eq_refl) as (g & f & _ & _ & (p & d & Hr & _)).
  vm_compute in Hr. discriminate Hr.
Qed.

(** C2, witness: after [n_threads], the mapped name [speed_up] lands at
    [result["vad"]["speed_up"]]. *)
Lemma resolver_algorithm_witness :
  _get_params Demo.schema Demo.mapping [("n_threads", PInt 2)]
  = Ok [("n_threads", Leaf (PInt 2))]
  /\ stored_nested_at
       (_get_params Demo.schema Demo.mapping
          [("n_threads", PInt 2); ("speed_up", PBool true)])
       "vad" "speed_up" (PBool true).
Proof.
  split; [reflexivity|].
  destruct (@resolver_algorithm Demo.schema Demo.mapping
              [("n_threads", PInt 2)] _ "speed_up" (PBool true) eq_refl)
    as [_ Hmapped].
  assert (Hn : ~ (PyDict.contains Demo.schema "speed_up" = true
                  /\ PBool true <> PNone))
    by (intros [Hc _]; discriminate Hc).
  destruct (Hmapped Hn "vad.speed_up" eq_refl) as [Hdot _].
  destruct (Hdot "vad" "speed_up" eq_refl) as (_ & _ & Hstored).
  - intros v0 Hv0. discriminate Hv0.
  - exact Hstored.
Defined.

(** C6, counterexample.  [language] is a schema key and also the mapped
    name of [vad.language]; passed with the value [None] it is not
    assigned under its own name but resolved through the mapping, into
    [result["vad"]["language"]]. *)
Lemma schema_precedence_null_value :
  ~ schema_precedence_as_stated Demo.both_schema Demo.both_mapping.
Proof.
  intros H.
  specialize (H [] [] "language" PNone "vad.language"
                eq_refl eq_refl eq_refl).
  vm_compute in H. discriminate H.
Qed.

(** C6, witness: the same name with the value ["en"] is assigned
    directly. *)
Lemma schema_precedence_witness :
  _get_params Demo.both_schema Demo.both_mapping [("language", PStr "en")]
  = Ok [("language", Leaf (PStr "en"))].
Proof.
  apply (@schema_precedence Demo.both_schema Demo.both_mapping
           [] [] "language" (PStr "en") "vad.language").
  - reflexivity.
  - reflexivity.
  - reflexivity.
  - discriminate.
Defined.

(** C7, witness: [model] is neither in the schema nor a mapped name;
    dropping it changes nothing. *)
Lemma unrecognized_arguments_inert_witness :
  _get_params Demo.schema Demo.mapping
    [("n_threads", PInt 2); ("model", PStr "tiny"); ("speed_up", PBool true)]
  = _get_params Demo.schema Demo.mapping
    [("n_threads", PInt 2); ("speed_up", PBool true)].
Proof.
  apply (@unrecognized_arguments_inert Demo.schema Demo.mapping
           [("n_threads", PInt 2)] [("speed_up", PBool true)]
           "model" (PStr "tiny")).
  - reflexivity.
  - reflexivity.
Defined.

(* ===================================================================== *)
(** ** The flags registered by [main] *)
(* ===================================================================== *)

Section Flags.

Variable mapping : ParamMapping.

Lemma flat_map_concat {A B} (f : A -> list B) (ls : list (list A)) :
  flat_map f (concat ls) = concat (map (flat_map f) ls).
Proof.
  induction ls as [|l ls IH]; simpl; [reflexivity|].
  rewrite flat_map_app, IH. reflexivity.
Qed.

(** The flags of the sub-keys of a dictionary typed parameter. *)
Lemma subkey_flags param items :
  flat_map name_or_flags
           (flat_map (subkey_arguments mapping param) items)
  = map flag_of (mapped_subkeys mapping param items).
Proof.
  induction items as [|[dft_key dft_val] items IH]; [reflexivity|].
  cbn [flat_map]. unfold mapped_subkeys in *. cbn [flat_map fst].
  rewrite flat_map_app, map_app, IH. f_equal.
  unfold subkey_arguments.
  destruct (PyDict.getitem mapping (param ++ "." ++ dft_key)%string)
    as [[|a rest]|]; reflexivity.
Qed.

(** The flags of one schema entry. *)
Lemma entry_flags item added :
  schema_arguments mapping item = Ok added ->
  one_flag_per_mapped_subkey mapping item (flat_map name_or_flags added).
Proof.
  destruct item as [param fields].
  unfold schema_arguments, one_flag_per_mapped_subkey, external_name.
  destruct (is_dict (type_ fields)).
  - destruct (default_ fields) as [v|items]; [discriminate|].
    intros H. injection H as <-. apply subkey_flags.
  - destruct (PyDict.getitem mapping param);
      intros H; injection H as <-; reflexivity.
Qed.

(** The fixed arguments of [main] register without error. *)
Lemma fixed_registration :
  for_each add_argument fixed_arguments [] = Ok fixed_arguments.
Proof. reflexivity. Qed.

(** A call of [add_argument] that returns has appended its argument. *)
Lemma add_argument_ok parser a parser' :
  add_argument parser a = Ok parser' -> parser' = parser ++ [a].
Proof.
  unfold add_argument.
  destruct (name_or_flags a) as [|name names]; [discriminate|].
  assert (Hrest :
    match option_strings a with
    | [] => Ok (parser ++ [a])
    | _ :: _ =>
        bind (for_each check_option_string (name :: names) tt)
          (fun _ =>
             if String.eqb
                  (PyStr.lstrip "-" (dest_option_string (name :: names))) ""
             then Raise ValueError
             else if existsb
                       (fun name0 =>
                          existsb (String.eqb name0) (registered parser))
                       (name :: names)
             then Raise ArgumentError
             else Ok (parser ++ [a]))
    end = Ok parser' -> parser' = parser ++ [a]).
  { destruct (option_strings a); [intros H; injection H as <-; reflexivity|].
    destruct (for_each check_option_string (name :: names) tt);
      [|discriminate].
    cbn [bind].
    destruct (String.eqb _ ""); [discriminate|].
    destruct (existsb _ (name :: names)); [discriminate|].
    intros H. injection H as <-. reflexivity. }
  destruct name as [|c rest]; destruct names; try exact Hrest.
  discriminate.
Qed.

Lemma add_all_ok added :
  forall parser parser',
  for_each add_argument added parser = Ok parser' ->
  parser' = parser ++ added.
Proof.
  induction added as [|a added IH]; intros parser parser' H.
  - injection H as <-. rewrite app_nil_r. reflexivity.
  - cbn [for_each] in H.
    destruct (add_argument parser a) as [p1|e] eqn:Ea; [|discriminate H].
    cbn [bind] in H. rewrite (IH _ _ H), (add_argument_ok _ _ _ Ea).
    rewrite <- app_assoc. reflexivity.
Qed.

(** A loop over the schema that returns has appended the arguments of
    each entry to the parser, entry by entry. *)
Lemma schema_loop_ok schema :
  forall parser parser',
  for_each (fun parser item =>
              bind (schema_arguments mapping item)
                   (fun added => for_each add_argument added parser))
           schema parser
  = Ok parser' ->
  exists per_entry : list (list argument),
    parser' = parser ++ concat per_entry
    /\ Forall2 (fun item added => schema_arguments mapping item = Ok added)
               schema per_entry.
Proof.
  induction schema as [|item schema IH]; intros parser parser' H.
  - injection H as <-. exists []. cbn. rewrite app_nil_r.
    split; [reflexivity|constructor].
  - cbn [for_each] in H.
    destruct (schema_arguments mapping item) as [added|e] eqn:Ea;
      [|discriminate H].
    cbn [bind] in H.
    destruct (for_each add_argument added parser) as [p1|e] eqn:Eadd;
      [|discriminate H].
    cbn [bind] in H. destruct (IH _ _ H) as (rest & -> & Hall).
    rewrite (add_all_ok _ _ _ Eadd).
    exists (added :: rest). cbn [concat]. rewrite app_assoc.
    split; [reflexivity|constructor; assumption].
Qed.

(** What [main] has registered when its registration returns. *)
Lemma main_arguments_ok schema parser :
  main_arguments schema mapping = Ok parser ->
  exists per_entry : list (list argument),
    parser = fixed_arguments ++ concat per_entry
    /\ Forall2 (fun item added => schema_arguments mapping item = Ok added)
               schema per_entry.
Proof.
  unfold main_arguments. rewrite fixed_registration. cbn [bind].
  apply schema_loop_ok.
Qed.

(** C8 (amended).  Whenever the registration of [main] completes (no
    call of [add_argument] raises), the flags registered after the fixed
    arguments are, entry by entry in schema order: for a plain entry
    exactly one flag, derived by replacing underscores with hyphens in
    the mapped externally facing name when the canonical name has one
    and in the canonical name otherwise; for a dictionary typed entry
    one such flag per default sub-key whose dotted path has a non-empty
    mapped name, and none for the other sub-keys. *)
Theorem flag_derivation schema flags :
  schema_flags schema mapping = Ok flags ->
  exists per_entry : list (list string),
    flags = concat per_entry /\
    Forall2 (one_flag_per_mapped_subkey mapping) schema per_entry.
Proof.
  unfold schema_flags. intros H.
  destruct (main_arguments schema mapping) as [parser|e] eqn:Em;
    [|discriminate H].
  cbn [bind] in H. injection H as <-.
  destruct (main_arguments_ok schema parser Em) as (per & -> & Hall).
  exists (map (flat_map name_or_flags) per). split.
  - exact (flat_map_concat name_or_flags per).
  - clear Em. induction Hall as [|item added schema' per' H _ IH].
    + constructor.
    + cbn [map]. constructor; [apply entry_flags; exact H|exact IH].
Qed.

End Flags.

(** C8, counterexample.  The dictionary typed parameter [greedy] has the
    default sub-key [best_of], which has no mapped name: no flag at all is
    registered for it. *)
Lemma flag_derivation_unmapped_subkey :
  ~ flag_derivation_as_stated Demo.greedy_schema Demo.greedy_mapping.
Proof.
  intros (per & Hflags & Hall).
  assert (Hnone : schema_flags Demo.greedy_schema Demo.greedy_mapping
                  = Ok []) by reflexivity.
  rewrite Hnone in Hflags. injection Hflags as Hnil.
  inversion Hall as [|item flags schema' per' Hone Hrest]; subst.
  inversion Hrest; subst.
  cbn [concat] in Hnil. rewrite app_nil_r in Hnil. subst flags.
  discriminate Hone.
Qed.

(** C8, witness: the flags of the demonstration tables. *)
Lemma flag_derivation_witness :
  schema_flags Demo.schema Demo.mapping
  = Ok ["--n-threads"; "--lang"; "--speed-up"]
  /\ exists per_entry : list (list string),
       ["--n-threads"; "--lang"; "--speed-up"] = concat per_entry /\
       Forall2 (one_flag_per_mapped_subkey Demo.mapping) Demo.schema
               per_entry.
Proof.
  split; [reflexivity|].
  apply (flag_derivation Demo.mapping Demo.schema). reflexivity.
Defined.

(* ===================================================================== *)
(** ** The output dispatch *)
(* ===================================================================== *)

Section Dispatch.

Variable u : utils.t.
Variable args : Namespace.

Lemma segment_lines_app tr1 tr2 :
  segment_lines (tr1 ++ tr2) = segment_lines tr1 ++ segment_lines tr2.
Proof. apply flat_map_app. Qed.

Lemma written_app tr1 tr2 : written (tr1 ++ tr2) = written tr1 ++ written tr2.
Proof. apply flat_map_app. Qed.

Lemma transcribed_files_app tr1 tr2 :
  transcribed_files (tr1 ++ tr2)
  = transcribed_files tr1 ++ transcribed_files tr2.
Proof. apply flat_map_app. Qed.

(** The console enumeration, seen by each reading of the trace. *)
Lemma console_lines (numbered : list (nat * Segment)) :
  let lines := map (fun p => Log INFO (SegmentLine (fst p) (snd p)))
                   numbered in
  segment_lines lines = numbered
  /\ written lines = []
  /\ transcribed_files lines = []
  /\ forall cur rest,
       batch_results_from cur (lines ++ rest) = batch_results_from cur rest.
Proof.
  induction numbered as [|[i seg] numbered (IH1 & IH2 & IH3 & IH4)].
  - repeat split.
  - cbn zeta in *. cbn [map fst snd]. repeat split.
    + cbn. f_equal. exact IH1.
    + exact IH2.
    + exact IH3.
    + intros cur rest. cbn. apply IH4.
Qed.

(** What the dispatch writes and what it prints. *)
Lemma output_stuff_effects segs file :
  written (output_stuff u args segs file)
  = map (fun fmt => (fmt, segs, file, writer u fmt segs file))
        (requested args)
  /\ segment_lines (output_stuff u args segs file)
     = (if output_csv args then [] else enumerate segs).
Proof.
  unfold output_stuff, requested.
  destruct (console_lines (enumerate segs)) as (Hl & Hw & _).
  cbn zeta in Hl, Hw.
  rewrite !written_app, !segment_lines_app. cbn [filter output_flag].
  destruct (output_txt args), (output_vtt args), (output_srt args),
           (output_csv args);
    cbn [save_as written segment_lines flat_map app map writer];
    rewrite ?Hl, ?Hw; split; reflexivity.
Qed.

(** The dispatch invokes no transcription and leaves the status of the
    files untouched. *)
Lemma output_stuff_silent segs file :
  transcribed_files (output_stuff u args segs file) = []
  /\ forall cur rest,
       batch_results_from cur (output_stuff u args segs file ++ rest)
       = batch_results_from cur rest.
Proof.
  unfold output_stuff.
  destruct (console_lines (enumerate segs)) as (_ & _ & Ht & Hb).
  cbn zeta in Ht, Hb.
  destruct (output_txt args), (output_vtt args), (output_srt args),
           (output_csv args);
    (split;
     [ rewrite !transcribed_files_app; cbn; rewrite ?Ht; reflexivity
     | intros cur rest; cbn; rewrite ?Hb; reflexivity ]).
Qed.

Lemma if_segs_silent segs file :
  transcribed_files (if_segs u args segs file) = []
  /\ forall cur rest,
       batch_results_from cur (if_segs u args segs file ++ rest)
       = batch_results_from cur rest.
Proof.
  destruct segs as [|seg segs]; [split; reflexivity|].
  apply output_stuff_silent.
Qed.

Lemma enumerate_length {A} (xs : list A) :
  length (enumerate xs) = length xs /\ map snd (enumerate xs) = xs.
Proof.
  unfold enumerate. generalize 0 as start.
  induction xs as [|x xs IH]; intros start; simpl; [split; reflexivity|].
  destruct (IH (S start)) as [Hlen Hsnd]. rewrite Hlen, Hsnd.
  split; reflexivity.
Qed.

(** C5.  When the result dispatch of a file runs with non-empty
    segments: with csv output requested no per-segment console line is
    emitted, without it exactly one console line per segment is
    emitted (numbered from 0, in order); in either case the file outputs
    written are exactly the requested ones, each by its own flag, in
    the order txt, vtt, srt, csv, over these segments and this source
    path. *)
Theorem csv_console_exclusive segs file :
  segs <> [] ->
  exists dispatched,
    finally_block u args (Some segs) file = Ok dispatched
    /\ (output_csv args = true -> segment_lines dispatched = [])
    /\ (output_csv args = false ->
        segment_lines dispatched = enumerate segs
        /\ length (segment_lines dispatched) = length segs
        /\ map snd (segment_lines dispatched) = segs)
    /\ written dispatched
       = map (fun fmt => (fmt, segs, file, writer u fmt segs file))
             (requested args)
    /\ (forall fmt,
          In fmt (map (fun w => fst (fst (fst w))) (written dispatched))
          <-> output_flag args fmt = true).
Proof.
  intros Hne. exists (output_stuff u args segs file).
  destruct (output_stuff_effects segs file) as [Hw Hl].
  destruct (enumerate_length segs) as [Hlen Hsnd].
  split; [destruct segs; [contradiction|reflexivity]|].
  rewrite Hw, Hl. repeat split.
  - intros ->. reflexivity.
  - rewrite H. reflexivity.
  - rewrite H. exact Hlen.
  - rewrite H. exact Hsnd.
  - rewrite map_map. cbn [fst]. rewrite map_id. unfold requested.
    intros Hin. apply filter_In in Hin. apply Hin.
  - rewrite map_map. cbn [fst]. rewrite map_id. unfold requested.
    intros Hflag. apply filter_In. split; [|exact Hflag].
    destruct fmt; simpl; auto.
Qed.

End Dispatch.

(** C5, witness: two segments, txt requested, csv not. *)
Lemma csv_console_exclusive_witness :
  exists dispatched,
    finally_block Demo.writers (Demo.args ["a.wav"] true false)
                  (Some Demo.hello) "a.wav" = Ok dispatched
    /\ segment_lines dispatched = enumerate Demo.hello
    /\ map (fun w => fst (fst (fst w))) (written dispatched) = [TXT].
Proof.
  destruct (@csv_console_exclusive Demo.writers
              (Demo.args ["a.wav"] true false) Demo.hello "a.wav")
    as (dispatched & Hfin & _ & Hlines & Hwritten & _).
  - discriminate.
  - exists dispatched. split; [exact Hfin|]. split.
    + apply Hlines. reflexivity.
    + rewrite Hwritten. reflexivity.
Defined.

(* ===================================================================== *)
(** ** One iteration of the batch loop *)
(* ===================================================================== *)

Section Batch.

Variable M : Type.
Variable ops : Model M.
Variable u : utils.t.
Variable args : Namespace.

Lemma except_exception file e :
  is_Exception e = true ->
  except_clauses file (Some e)
  = ([Log ERROR (ErrorWhileProcessing file e)], Next).
Proof. destruct e; try discriminate; reflexivity. Qed.

Lemma except_clauses_silent file raised :
  transcribed_files (fst (except_clauses file raised)) = [].
Proof. destruct raised as [[]|]; reflexivity. Qed.

Lemma if_segs_nonempty prev file :
  prev <> [] -> if_segs u args prev file = output_stuff u args prev file.
Proof. destruct prev; [contradiction|reflexivity]. Qed.

(** The file is transcribed and the timings are printed. *)
Lemma loop_body_returns fr file m1 s m2 :
  transcribe ops (m fr) file (n_processors args) = (m1, Ok s) ->
  print_timings ops m1 = (m2, Ok tt) ->
  loop_body ops u args fr file
  = ({| m := m2; segs := Some s |},
     [Log INFO (ProcessingFile file);
      CallTranscribe file (n_processors args) (Ok s);
      CallPrintTimings (Ok tt)] ++ if_segs u args s file,
     Next).
Proof.
  intros Ht Hp. unfold loop_body, try_block. rewrite Ht, Hp. reflexivity.
Qed.

(** [transcribe] raises an [Exception] while [segs] is bound. *)
Lemma loop_body_error_bound fr file prev m1 e :
  segs fr = Some prev ->
  transcribe ops (m fr) file (n_processors args) = (m1, Raise e) ->
  is_Exception e = true ->
  loop_body ops u args fr file
  = ({| m := m1; segs := Some prev |},
     [Log INFO (ProcessingFile file);
      CallTranscribe file (n_processors args) (Raise e);
      Log ERROR (ErrorWhileProcessing file e)] ++ if_segs u args prev file,
     Next).
Proof.
  intros Hs Ht He. unfold loop_body, try_block.
  rewrite Ht, (except_exception file e He). cbn [segs]. rewrite Hs.
  reflexivity.
Qed.


(** [transcribe] raises [KeyboardInterrupt] while [segs] is bound. *)
Lemma loop_body_interrupt_bound fr file prev m1 :
  segs fr = Some prev ->
  transcribe ops (m fr) file (n_processors args)
  = (m1, Raise KeyboardInterrupt) ->
  loop_body ops u args fr file
  = ({| m := m1; segs := Some prev |},
     [Log INFO (ProcessingFile file);
      CallTranscribe file (n_processors args) (Raise KeyboardInterrupt);
      Log INFO ManuallyStopped] ++ if_segs u args prev file,
     Break).
Proof.
  intros Hs Ht. unfold loop_body, try_block. rewrite Ht. cbn [segs].
  rewrite Hs. reflexivity.
Qed.

Lemma except_other file e :
  e <> KeyboardInterrupt ->
  except_clauses file (Some e)
  = if is_Exception e
    then ([Log ERROR (ErrorWhileProcessing file e)], Next)
    else ([], Propagate e).
Proof. destruct e; try contradiction; reflexivity. Qed.

(** [transcribe] raises anything but [KeyboardInterrupt] while [segs] is
    bound: the dispatch runs on what [segs] holds. *)
Lemma loop_body_raise_bound fr file prev m1 e :
  segs fr = Some prev ->
  transcribe ops (m fr) file (n_processors args) = (m1, Raise e) ->
  e <> KeyboardInterrupt ->
  loop_body ops u args fr file
  = ({| m := m1; segs := Some prev |},
     [Log INFO (ProcessingFile file);
      CallTranscribe file (n_processors args) (Raise e)]
     ++ (if is_Exception e
         then [Log ERROR (ErrorWhileProcessing file e)] else [])
     ++ if_segs u args prev file,
     if is_Exception e then Next else Propagate e).
Proof.
  intros Hs Ht He. unfold loop_body, try_block.
  rewrite Ht, (except_other file e He). cbn [segs]. rewrite Hs.
  destruct (is_Exception e); reflexivity.
Qed.

(** Each iteration invokes [transcribe] once, on its own file. *)
Lemma loop_body_transcribed fr file fr1 done c :
  loop_body ops u args fr file = (fr1, done, c) ->
  transcribed_files done = [file].
Proof.
  unfold loop_body.
  destruct (try_block ops args fr file) as [[fr' tried] raised] eqn:Et.
  assert (Htried : transcribed_files tried = [file]).
  { unfold try_block in Et.
    destruct (transcribe ops (m fr) file (n_processors args)) as [m1 [s|e]].
    - destruct (print_timings ops m1) as [m2 r2].
      injection Et as _ <- _. reflexivity.
    - injection Et as _ <- _. reflexivity. }
  pose proof (except_clauses_silent file raised) as Hh.
  destruct (except_clauses file raised) as [handled pending].
  cbn [fst] in Hh. unfold finally_block.
  destruct (segs fr') as [bound|]; intros H; injection H as _ <- _;
    rewrite !transcribed_files_app, Htried, Hh; [|reflexivity].
  rewrite (proj1 (if_segs_silent u args bound file)). reflexivity.
Qed.

(** An interrupt in the [try] block ends the loop, by [break] or, with
    [segs] unbound, by the error of the [finally] block. *)
Lemma loop_body_interrupted fr file fr1 done c :
  snd (try_block ops args fr file) = Some KeyboardInterrupt ->
  loop_body ops u args fr file = (fr1, done, c) ->
  c = Break \/ c = Propagate (UnboundLocalError "segs").
Proof.
  unfold loop_body.
  destruct (try_block ops args fr file) as [[fr' tried] raised].
  cbn [snd]. intros ->. cbn [except_clauses]. unfold finally_block.
  destruct (segs fr'); intros H; injection H as _ _ <-; auto.
Qed.

(** Where the value of [segs] comes from: it is the one before the
    iteration, or the list this iteration's [transcribe] returned. *)
Lemma loop_body_segs fr file fr1 done c :
  loop_body ops u args fr file = (fr1, done, c) ->
  segs fr1 = segs fr
  \/ exists s, segs fr1 = Some s
               /\ In (CallTranscribe file (n_processors args) (Ok s)) done.
Proof.
  unfold loop_body, try_block.
  destruct (transcribe ops (m fr) file (n_processors args)) as [m1 [s|e]].
  - destruct (print_timings ops m1) as [m2 r2].
    destruct (except_clauses file
                match r2 with Ok _ => None | Raise e => Some e end)
      as [handled pending].
    cbn [segs finally_block]. intros H. injection H as <- <- _.
    right. exists s. split; [reflexivity|]. cbn. auto.
  - destruct (except_clauses file (Some e)) as [handled pending].
    cbn [segs]. destruct (finally_block u args (segs fr) file);
      intros H; injection H as <- _ _; left; reflexivity.
Qed.

(* =================================================================== *)
(** ** The loop over the files *)
(* =================================================================== *)

Lemma for_loop_cons_next fr file files fr1 done :
  loop_body ops u args fr file = (fr1, done, Next) ->
  for_loop ops u args fr (file :: files)
  = (let '(fr2, later, c) := for_loop ops u args fr1 files in
     (fr2, done ++ later, c)).
Proof. intros H. cbn [for_loop]. rewrite H. reflexivity. Qed.

Lemma for_loop_cons_stop fr file files fr1 done c :
  loop_body ops u args fr file = (fr1, done, c) ->
  c <> Next ->
  for_loop ops u args fr (file :: files) = (fr1, done, c).
Proof.
  intros H Hc. cbn [for_loop]. rewrite H.
  destruct c; [contradiction|reflexivity|reflexivity].
Qed.

(** A prefix of the batch that was worked off is followed by the loop
    over the rest. *)
Lemma for_loop_app before rest :
  forall fr0 fr1 tr1,
  for_loop ops u args fr0 before = (fr1, tr1, Next) ->
  for_loop ops u args fr0 (before ++ rest)
  = (let '(fr2, tr2, c) := for_loop ops u args fr1 rest in
     (fr2, tr1 ++ tr2, c)).
Proof.
  induction before as [|file before IH]; intros fr0 fr1 tr1 H.
  - cbn in H. injection H as <- <-. cbn [app].
    destruct (for_loop ops u args fr0 rest) as [[fr2 tr2] c]. reflexivity.
  - cbn [for_loop app] in *.
    destruct (loop_body ops u args fr0 file) as [[fra tra] [| |e]];
      try discriminate H.
    destruct (for_loop ops u args fra before) as [[frb trb] cb] eqn:Eb.
    injection H as -> <- ->.
    rewrite (IH fra fr1 trb Eb).
    destruct (for_loop ops u args fr1 rest) as [[fr2 tr2] c].
    rewrite app_assoc. reflexivity.
Qed.

(** The loop transcribes a prefix of the batch; the whole batch when it
    runs to the end. *)
Lemma for_loop_exhausted files :
  forall fr0 fr1 tr1,
  for_loop ops u args fr0 files = (fr1, tr1, Next) ->
  transcribed_files tr1 = files.
Proof.
  induction files as [|file files IH]; intros fr0 fr1 tr1 H.
  - cbn in H. injection H as _ <-. reflexivity.
  - cbn [for_loop] in H.
    destruct (loop_body ops u args fr0 file) as [[fra tra] c] eqn:Eb.
    pose proof (loop_body_transcribed _ _ _ _ _ Eb) as Ht.
    destruct c; try discriminate H.
    destruct (for_loop ops u args fra files) as [[frb trb] cb] eqn:El.
    injection H as _ <- ->.
    rewrite transcribed_files_app, Ht, (IH _ _ _ El). reflexivity.
Qed.

(** A bound [segs] was bound before the loop or was returned by a
    [transcribe] call of the loop. *)
Lemma for_loop_segs files :
  forall fr0 fr1 tr1 c prev,
  for_loop ops u args fr0 files = (fr1, tr1, c) ->
  segs fr1 = Some prev ->
  segs fr0 = Some prev
  \/ exists file,
       In (CallTranscribe file (n_processors args) (Ok prev)) tr1.
Proof.
  induction files as [|file files IH]; intros fr0 fr1 tr1 c prev H Hs.
  - cbn in H. injection H as <- _ _. left. exact Hs.
  - cbn [for_loop] in H.
    destruct (loop_body ops u args fr0 file) as [[fra tra] ca] eqn:Eb.
    assert (Hone : segs fra = Some prev ->
                   segs fr0 = Some prev
                   \/ exists file0,
                        In (CallTranscribe file0 (n_processors args)
                                           (Ok prev)) tra).
    { intros Ha. destruct (loop_body_segs _ _ _ _ _ Eb) as [Heq|(s & Hb & Hin)].
      - left. congruence.
      - right. exists file. congruence. }
    destruct ca.
    + destruct (for_loop ops u args fra files) as [[frb trb] cb] eqn:El.
      injection H as <- <- _.
      destruct (IH _ _ _ _ _ El Hs) as [Ha|[file0 Hin]].
      * destruct (Hone Ha) as [H0|[file0 Hin]]; [left; exact H0|].
        right. exists file0. apply in_or_app. left. exact Hin.
      * right. exists file0. apply in_or_app. right. exact Hin.
    + injection H as <- <- _. exact (Hone Hs).
    + injection H as <- <- _. exact (Hone Hs).
Qed.

End Batch.

(* ===================================================================== *)
(** ** The batch runner *)
(* ===================================================================== *)

Section Runner.

Variable M : Type.
Variable ops : Model M.
Variable u : utils.t.
Variable args : Namespace.

(** [run] is its three opening log lines followed by the loop, started
    with [segs] unbound. *)
Lemma run_loop schema mapping params m0 fr trace c :
  _get_params schema mapping (args_dict args) = Ok params ->
  Model_init ops (model args) params = Ok m0 ->
  for_loop ops u args {| m := m0; segs := None |} (media_file args)
  = (fr, trace, c) ->
  run ops u schema mapping args
  = (Log INFO (RunningWithModel (model args))
     :: Log INFO (RunningWithParams params)
     :: Log INFO (SystemInfo (get_params_n_threads ops m0)
                             (processors args) (system_info ops m0))
     :: trace,
     match c with Propagate e => Raise e | _ => Ok tt end).
Proof.
  intros Hp Hm Hl. unfold run. rewrite Hp, Hm, Hl. reflexivity.
Qed.

Lemma transcribed_files_log lvl msg trace :
  transcribed_files (Log lvl msg :: trace) = transcribed_files trace.
Proof. reflexivity. Qed.

(** C1 (amended).  A batch of three files in which transcribing the
    second raises an exception of class [Exception] and the first and
    third succeed: [run] returns
    normally (the exception does not leave the loop), the error is
    logged for the second file, [transcribe] is invoked on all three
    files in order, and the files end SUCCEEDED, FAILED, SUCCEEDED. *)
Theorem batch_failure_isolation
    schema mapping params m0 f1 f2 f3 s1 s3 e m1 m1' m2 m3 m3' :
  _get_params schema mapping (args_dict args) = Ok params ->
  Model_init ops (model args) params = Ok m0 ->
  media_file args = [f1; f2; f3] ->
  transcribe ops m0 f1 (n_processors args) = (m1, Ok s1) ->
  print_timings ops m1 = (m1', Ok tt) ->
  transcribe ops m1' f2 (n_processors args) = (m2, Raise e) ->
  is_Exception e = true ->
  transcribe ops m2 f3 (n_processors args) = (m3, Ok s3) ->
  print_timings ops m3 = (m3', Ok tt) ->
  let trace := fst (run ops u schema mapping args) in
  snd (run ops u schema mapping args) = Ok tt
  /\ In (Log ERROR (ErrorWhileProcessing f2 e)) trace
  /\ transcribed_files trace = [f1; f2; f3]
  /\ batch_results trace
     = [(f1, SUCCEEDED); (f2, FAILED); (f3, SUCCEEDED)].
Proof.
  intros Hp Hm Hfiles Ht1 Hp1 Ht2 He Ht3 Hp3 trace. subst trace.
  pose proof (loop_body_returns M ops u args
                {| m := m0; segs := None |} f1 m1 s1 m1' Ht1 Hp1) as B1.
  pose proof (loop_body_error_bound M ops u args
                {| m := m1'; segs := Some s1 |} f2 s1 m2 e
                eq_refl Ht2 He) as B2.
  pose proof (loop_body_returns M ops u args
                {| m := m2; segs := Some s1 |} f3 m3 s3 m3' Ht3 Hp3) as B3.
  pose proof (for_loop_cons_next M ops u args _ _ [f2; f3] _ _ B1) as L.
  rewrite <- Hfiles in L.
  rewrite (for_loop_cons_next M ops u args _ _ [f3] _ _ B2) in L.
  rewrite (for_loop_cons_next M ops u args _ _ [] _ _ B3) in L.
  cbn [for_loop] in L.
  rewrite (run_loop schema mapping params m0 _ _ _ Hp Hm L).
  cbn [fst snd]. split; [reflexivity|]. split; [|split].
  - do 3 right. apply in_or_app. right. apply in_or_app. left.
    cbn. auto.
  - rewrite !transcribed_files_log.
    rewrite (for_loop_exhausted M ops u args _ _ _ _ L). exact Hfiles.
  - unfold batch_results.
    cbn [batch_results_from app].
    rewrite (proj2 (if_segs_silent u args s1 f1)).
    cbn [batch_results_from app].
    rewrite (proj2 (if_segs_silent u args s1 f2)).
    cbn [batch_results_from app].
    rewrite (proj2 (if_segs_silent u args s3 f3)).
    reflexivity.
Qed.


Lemma in_transcribed file k r trace :
  In (CallTranscribe file k r) trace -> In file (transcribed_files trace).
Proof.
  intros H. unfold transcribed_files. apply in_flat_map.
  exists (CallTranscribe file k r). split; [exact H|]. left. reflexivity.
Qed.

(** C3 (amended).  [segs] is not reset between iterations: when a file
    succeeds with non-empty segments and the transcription call of the
    next file raises an exception other than [KeyboardInterrupt], so
    that [segs] is not assigned again, the iteration of the failed file
    still runs the output dispatch, on the segments of the file before
    it and under the failed file's own source path.  After an
    [Exception] the error is logged and the loop goes on; any other
    exception leaves the loop once the dispatch is done. *)
Theorem stale_segments_reemitted
    fr0 before prev_file file after fr1 tr1 prev e m1 m2 m3 :
  for_loop ops u args fr0 before = (fr1, tr1, Next) ->
  transcribe ops (m fr1) prev_file (n_processors args) = (m1, Ok prev) ->
  print_timings ops m1 = (m2, Ok tt) ->
  prev <> [] ->
  transcribe ops m2 file (n_processors args) = (m3, Raise e) ->
  e <> KeyboardInterrupt ->
  exists fr' later c,
    for_loop ops u args fr0 (before ++ prev_file :: file :: after)
    = (fr',
       tr1
       ++ ([Log INFO (ProcessingFile prev_file);
            CallTranscribe prev_file (n_processors args) (Ok prev);
            CallPrintTimings (Ok tt)]
           ++ output_stuff u args prev prev_file)
       ++ ([Log INFO (ProcessingFile file);
            CallTranscribe file (n_processors args) (Raise e)]
           ++ (if is_Exception e
               then [Log ERROR (ErrorWhileProcessing file e)] else [])
           ++ output_stuff u args prev file)
       ++ later,
       c)
    /\ (is_Exception e = false -> later = [] /\ c = Propagate e)
    /\ written (output_stuff u args prev file)
       = map (fun fmt => (fmt, prev, file, writer u fmt prev file))
             (requested args)
    /\ segment_lines (output_stuff u args prev file)
       = (if output_csv args then [] else enumerate prev).
Proof.
  intros Hbefore Ht1 Hp1 Hne Ht2 He.
  pose proof (loop_body_returns M ops u args fr1 prev_file m1 prev m2
                Ht1 Hp1) as B1.
  pose proof (loop_body_raise_bound M ops u args
                {| m := m2; segs := Some prev |} file prev m3 e
                eq_refl Ht2 He) as B2.
  rewrite (if_segs_nonempty u args prev prev_file Hne) in B1.
  rewrite (if_segs_nonempty u args prev file Hne) in B2.
  rewrite (for_loop_app M ops u args before _ _ _ _ Hbefore).
  rewrite (for_loop_cons_next M ops u args _ _ _ _ _ B1).
  destruct (is_Exception e) eqn:Ex.
  - rewrite (for_loop_cons_next M ops u args _ _ _ _ _ B2).
    destruct (for_loop ops u args {| m := m3; segs := Some prev |} after)
      as [[fr' later] c].
    exists fr', later, c. split; [reflexivity|].
    split; [discriminate|]. apply output_stuff_effects.
  - rewrite (for_loop_cons_stop M ops u args _ _ after _ _ _ B2
               ltac:(discriminate)).
    exists {| m := m3; segs := Some prev |}, [], (Propagate e).
    split; [rewrite app_nil_r; reflexivity|].
    split; [intros _; split; reflexivity|]. apply output_stuff_effects.
Qed.

(** C4.  When [KeyboardInterrupt] is raised while file k is processed
    (by either call of the [try] block), the loop ends there: by
    [break], or by the error of the [finally] block when [segs] was
    never assigned.  [transcribe] has been invoked on the files up to k
    and on no later file, and everything done for the files before k
    stays in place at the head of the trace. *)
Theorem interrupt_aborts_batch fr0 before file after fr1 tr1 :
  for_loop ops u args fr0 before = (fr1, tr1, Next) ->
  snd (try_block ops args fr1 file) = Some KeyboardInterrupt ->
  exists fr' done c,
    for_loop ops u args fr0 (before ++ file :: after)
    = (fr', tr1 ++ done, c)
    /\ (c = Break \/ c = Propagate (UnboundLocalError "segs"))
    /\ transcribed_files (tr1 ++ done) = before ++ [file].
Proof.
  intros Hbefore Hraised.
  rewrite (for_loop_app M ops u args before _ _ _ _ Hbefore).
  destruct (loop_body ops u args fr1 file) as [[fr' done] c] eqn:Eb.
  pose proof (loop_body_interrupted M ops u args _ _ _ _ _ Hraised Eb)
    as Hc.
  assert (Hstop : c <> Next) by (destruct Hc as [-> | ->]; discriminate).
  rewrite (for_loop_cons_stop M ops u args _ _ after _ _ _ Eb Hstop).
  exists fr', done, c. split; [reflexivity|]. split; [exact Hc|].
  rewrite transcribed_files_app.
  rewrite (for_loop_exhausted M ops u args _ _ _ _ Hbefore).
  rewrite (loop_body_transcribed M ops u args _ _ _ _ _ Eb).
  reflexivity.
Qed.

(** C10 (amended).  When [KeyboardInterrupt] is raised by the
    transcription call of file k while [segs] still holds the non-empty
    segments that an earlier file of the batch produced, the [finally] block runs the
    output dispatch once more before the loop exits by [break]: it
    writes or logs those earlier segments under the source path of
    file k. *)
Theorem interrupt_emits_stale_output
    fr0 before file after fr1 tr1 prev m1 :
  segs fr0 = None ->
  for_loop ops u args fr0 before = (fr1, tr1, Next) ->
  segs fr1 = Some prev ->
  prev <> [] ->
  transcribe ops (m fr1) file (n_processors args)
  = (m1, Raise KeyboardInterrupt) ->
  (exists earlier,
     In earlier before
     /\ In (CallTranscribe earlier (n_processors args) (Ok prev)) tr1)
  /\ for_loop ops u args fr0 (before ++ file :: after)
     = ({| m := m1; segs := Some prev |},
        tr1
        ++ [Log INFO (ProcessingFile file);
            CallTranscribe file (n_processors args)
                           (Raise KeyboardInterrupt);
            Log INFO ManuallyStopped]
        ++ output_stuff u args prev file,
        Break)
  /\ written (output_stuff u args prev file)
     = map (fun fmt => (fmt, prev, file, writer u fmt prev file))
           (requested args)
  /\ segment_lines (output_stuff u args prev file)
     = (if output_csv args then [] else enumerate prev).
Proof.
  intros Hfresh Hbefore Hsegs Hne Ht. split; [|split].
  - destruct (for_loop_segs M ops u args before _ _ _ _ _ Hbefore Hsegs)
      as [Habs|[earlier Hin]]; [congruence|].
    exists earlier. split; [|exact Hin].
    rewrite <- (for_loop_exhausted M ops u args _ _ _ _ Hbefore).
    apply (in_transcribed _ _ _ _ Hin).
  - pose proof (loop_body_interrupt_bound M ops u args fr1 file prev m1
                  Hsegs Ht) as B.
    rewrite (if_segs_nonempty u args prev _ Hne) in B.
    rewrite (for_loop_app M ops u args before _ _ _ _ Hbefore).
    rewrite (for_loop_cons_stop M ops u args _ _ after _ _ _ B
               ltac:(discriminate)).
    reflexivity.
  - apply output_stuff_effects.
Qed.

End Runner.

(* ===================================================================== *)
(** ** The batch runner on scripted engines *)
(* ===================================================================== *)

(** C1, witness: three files, the second one fails. *)
Lemma batch_failure_isolation_witness :
  snd (run (Demo.scripted Demo.second_fails) Demo.writers
           Demo.schema Demo.mapping (Demo.args Demo.abc true false))
  = Ok tt
  /\ batch_results
       (fst (run (Demo.scripted Demo.second_fails) Demo.writers
                 Demo.schema Demo.mapping (Demo.args Demo.abc true false)))
     = [("a.wav", SUCCEEDED); ("b.wav", FAILED); ("c.wav", SUCCEEDED)].
Proof.
  destruct (batch_failure_isolation _
              (Demo.scripted Demo.second_fails) Demo.writers
              (Demo.args Demo.abc true false)
              Demo.schema Demo.mapping
              [("vad", Group [("speed_up", PBool true)])]
              Demo.second_fails
              "a.wav" "b.wav" "c.wav" Demo.hello Demo.bye
              (EngineError "bad file")
              [Raise (EngineError "bad file"); Ok Demo.bye]
              [Raise (EngineError "bad file"); Ok Demo.bye]
              [Ok Demo.bye] [] []
              eq_refl eq_refl eq_refl eq_refl eq_refl eq_refl eq_refl
              eq_refl eq_refl)
    as (Hret & _ & _ & Hres).
  split; [exact Hret | exact Hres].
Defined.


(** C3, witness: [b.wav] fails after [a.wav]; the txt writer is called
    for [b.wav] with the segments of [a.wav]. *)
Lemma stale_segments_reemitted_witness :
  In (CallOutput TXT Demo.hello "b.wav" "b.wav.txt")
     (snd (fst (for_loop (Demo.scripted Demo.second_fails) Demo.writers
                         (Demo.args Demo.abc true false)
                         {| m := Demo.second_fails; segs := None |}
                         Demo.abc))).
Proof.
  destruct (stale_segments_reemitted _
              (Demo.scripted Demo.second_fails) Demo.writers
              (Demo.args Demo.abc true false)
              {| m := Demo.second_fails; segs := None |}
              [] "a.wav" "b.wav" ["c.wav"]
              _ [] Demo.hello (EngineError "bad file")
              [Raise (EngineError "bad file"); Ok Demo.bye]
              [Raise (EngineError "bad file"); Ok Demo.bye]
              [Ok Demo.bye]
              eq_refl eq_refl eq_refl ltac:(discriminate) eq_refl
              ltac:(discriminate))
    as (fr & later & c & Hloop & _ & _ & _).
  change ([] ++ ["a.wav"; "b.wav"; "c.wav"]) with Demo.abc in Hloop.
  rewrite Hloop. cbn [fst snd].
  rewrite !in_app_iff. right. right. left. right. right.
  cbn. auto 10.
Defined.

(** C1, counterexample.  [transcribe] ends the interpreter on the
    second file: [SystemExit] is no [Exception], [except Exception] does
    not catch it, [run] ends with it and the third file is never
    transcribed. *)
Lemma batch_failure_isolation_system_exit :
  ~ failure_isolation_as_stated
      (Demo.scripted Demo.second_exits) Demo.writers
      Demo.schema Demo.mapping (Demo.args Demo.abc true false).
Proof.
  intros H.
  destruct (H [("vad", Group [("speed_up", PBool true)])]
              Demo.second_exits "a.wav" "b.wav" "c.wav"
              Demo.hello Demo.bye SystemExit
              [Raise SystemExit; Ok Demo.bye]
              [Raise SystemExit; Ok Demo.bye]
              [Ok Demo.bye] [] []
              eq_refl eq_refl eq_refl eq_refl eq_refl eq_refl
              ltac:(discriminate) eq_refl eq_refl) as [Hret _].
  vm_compute in Hret. discriminate Hret.
Qed.

(** C3, counterexample.  [print_timings] raises after the transcription
    of [b.wav] has returned: the processing of [b.wav] fails, but its
    dispatch writes the segments of [b.wav] itself, not those of
    [a.wav]. *)
Lemma stale_segments_own_after_timings :
  ~ stale_reemission_as_stated
      Demo.timings_fail Demo.writers
      (Demo.args ["a.wav"; "b.wav"] true false).
Proof.
  intros H.
  pose proof (H {| m := 0; segs := None |} "a.wav" "b.wav"
                _ _ Demo.hello (EngineError "no timings") _ _ _
                eq_refl eq_refl ltac:(discriminate) eq_refl
                ltac:(discriminate) eq_refl) as Hw.
  vm_compute in Hw. discriminate Hw.
Qed.

(** C10, counterexample.  [a.wav] gives two segments, [b.wav] gives
    none, the transcription of [c.wav] is interrupted: [segs] holds the
    empty list of [b.wav] and nothing is dispatched. *)
Lemma interrupt_after_empty_file :
  ~ interrupt_stale_output_as_stated
      (Demo.scripted Demo.empty_then_interrupted) Demo.writers
      (Demo.args Demo.abc true false).
Proof.
  intros H.
  unshelve epose proof
    (H {| m := Demo.empty_then_interrupted; segs := None |}
       ["a.wav"; "b.wav"] "c.wav" _ _ "a.wav" Demo.hello _ _ _
       eq_refl eq_refl _ _ eq_refl eq_refl) as Hw.
  - vm_compute. auto 10.
  - discriminate.
  - vm_compute in Hw. discriminate Hw.
Qed.

(** C4, witness: the interrupt comes during the second of three files;
    the third is never transcribed. *)
Lemma interrupt_aborts_batch_witness :
  transcribed_files
    (snd (fst (for_loop (Demo.scripted Demo.second_interrupted)
                        Demo.writers (Demo.args Demo.abc true false)
                        {| m := Demo.second_interrupted; segs := None |}
                        Demo.abc)))
  = ["a.wav"; "b.wav"].
Proof.
  destruct (interrupt_aborts_batch _
              (Demo.scripted Demo.second_interrupted) Demo.writers
              (Demo.args Demo.abc true false)
              {| m := Demo.second_interrupted; segs := None |}
              ["a.wav"] "b.wav" ["c.wav"] _ _ eq_refl eq_refl)
    as (fr & done & c & Hloop & _ & Htr).
  change (["a.wav"] ++ ["b.wav"; "c.wav"]) with Demo.abc in Hloop.
  rewrite Hloop. exact Htr.
Defined.

(** C10, witness: the interrupt during [b.wav] writes [b.wav.txt] and
    [b.wav.csv] from the segments of [a.wav], and the loop breaks. *)
Lemma interrupt_emits_stale_output_witness :
  snd (for_loop (Demo.scripted Demo.second_interrupted)
                Demo.writers (Demo.args Demo.abc true true)
                {| m := Demo.second_interrupted; segs := None |}
                Demo.abc)
  = Break
  /\ written (output_stuff Demo.writers (Demo.args Demo.abc true true)
                           Demo.hello "b.wav")
     = [(TXT, Demo.hello, "b.wav", "b.wav.txt");
        (CSV, Demo.hello, "b.wav", "b.wav.csv")].
Proof.
  destruct (interrupt_emits_stale_output _
              (Demo.scripted Demo.second_interrupted)
              Demo.writers (Demo.args Demo.abc true true)
              {| m := Demo.second_interrupted; segs := None |}
              ["a.wav"] "b.wav" ["c.wav"] _ _ Demo.hello [Ok Demo.bye]
              eq_refl eq_refl eq_refl ltac:(discriminate) eq_refl)
    as (_ & Hloop & Hwritten & _).
  change (["a.wav"] ++ ["b.wav"; "c.wav"]) with Demo.abc in Hloop.
  rewrite Hloop. split; [reflexivity | exact Hwritten].
Defined.

(* ===================================================================== *)
(** ** The inverse mapping *)
(* ===================================================================== *)

Lemma getitem_setitem_ne {V} (d : PyDict.t V) (k k' : string) (v : V) :
  k <> k' -> PyDict.getitem (PyDict.setitem d k v) k' = PyDict.getitem d k'.
Proof.
  intros Hne. induction d as [|[k0 v0] d IH]; simpl.
  - destruct (String.eqb k k') eqn:E; [|reflexivity].
    apply String.eqb_eq in E. contradiction.
  - destruct (String.eqb k0 k) eqn:E0; simpl.
    + apply String.eqb_eq in E0. subst k0.
      destruct (String.eqb k k') eqn:E; [|reflexivity].
      apply String.eqb_eq in E. contradiction.
    + destruct (String.eqb k0 k'); [reflexivity|exact IH].
Qed.

Section Inverse.

(** An item of the mapping that is followed by no item with the same
    name decides what the inverse holds for that name. *)
Lemma invert_last (after : ParamMapping) :
  forall acc path name,
  ~ In name (map snd after) ->
  PyDict.getitem acc name = Some path ->
  PyDict.getitem (fold_left (fun inv kv => PyDict.setitem inv (snd kv) (fst kv))
       after acc) name =
  Some path.
Proof.
  induction after as [|[p n] after IH]; intros acc path name Hnot Hacc.
  - exact Hacc.
  - cbn [fold_left]. apply IH.
    + intros Hin. apply Hnot. right. exact Hin.
    + cbn [fst snd]. rewrite getitem_setitem_ne; [exact Hacc|].
      intros ->. apply Hnot. left. reflexivity.
Qed.

(** X1.  The comprehension of line 35 keeps, for an externally facing
    name, the canonical path of the last item of [PARAMS_MAPPING] that
    carries this name. *)
Theorem inverse_mapping_last_wins before path name after :
  ~ In name (map snd after) ->
  PyDict.getitem
    (inv_params_mapping (before ++ (path, name) :: after)) name
  = Some path.
Proof.
  intros Hnot. unfold inv_params_mapping. rewrite fold_left_app.
  cbn [fold_left]. apply (invert_last after _ path name Hnot).
  cbn [fst snd]. apply getitem_setitem_eq.
Qed.

Lemma invert_sound (mapping : ParamMapping) :
  forall acc name path,
  PyDict.getitem (fold_left (fun inv kv => PyDict.setitem inv (snd kv) (fst kv))
       mapping acc) name = Some path ->
  In (path, name) mapping \/ PyDict.getitem acc name = Some path.
Proof.
  induction mapping as [|[p n] mapping IH]; intros acc name path H.
  - right. exact H.
  - cbn [fold_left] in H. destruct (IH _ _ _ H) as [Hin|Hacc].
    + left. right. exact Hin.
    + cbn [fst snd] in Hacc.
      destruct (String.eqb n name) eqn:E.
      * apply String.eqb_eq in E. subst n.
        rewrite getitem_setitem_eq in Hacc. injection Hacc as <-.
        left. left. reflexivity.
      * rewrite getitem_setitem_ne in Hacc; [right; exact Hacc|].
        intros ->. rewrite String.eqb_refl in E. discriminate.
Qed.

Lemma invert_complete (mapping : ParamMapping) :
  forall acc name,
  In name (map snd mapping) ->
  exists path,
    PyDict.getitem (fold_left (fun inv kv => PyDict.setitem inv (snd kv) (fst kv))
       mapping acc) name = Some path.
Proof.
  induction mapping as [|[p n] mapping IH]; intros acc name Hin.
  - contradiction.
  - cbn [fold_left].
    destruct (in_dec string_dec name (map snd mapping)) as [Hlater|Hlast].
    + apply IH. exact Hlater.
    + destruct Hin as [Heq|Hin]; [|contradiction].
      cbn [snd] in Heq. subst n. exists p.
      apply (invert_last mapping _ p name Hlast).
      cbn [fst snd]. apply getitem_setitem_eq.
Qed.

(** X2.  The inverse mapping recognises exactly the externally facing
    names of [PARAMS_MAPPING], and what it returns for a name is a
    canonical path that the mapping maps to this name. *)
Theorem inverse_mapping_exact (mapping : ParamMapping) (name : string) :
  (In name (map snd mapping) <->
   exists path,
     PyDict.getitem (inv_params_mapping mapping) name = Some path)
  /\ (forall path,
        PyDict.getitem (inv_params_mapping mapping) name = Some path ->
        In (path, name) mapping).
Proof.
  unfold inv_params_mapping. split; [split|].
  - apply invert_complete.
  - intros [path H]. destruct (invert_sound _ _ _ _ H) as [Hin|Habs].
    + apply (in_map snd) in Hin. exact Hin.
    + discriminate Habs.
  - intros path H. destruct (invert_sound _ _ _ _ H) as [Hin|Habs].
    + exact Hin.
    + discriminate Habs.
Qed.

End Inverse.

(* ===================================================================== *)
(** ** The resolver, argument by argument *)
(* ===================================================================== *)

Section Targets.

Variable schema : ParamSchema.
Variable inv : PyDict.t string.

(** The loop body by the branch it takes. *)
Lemma body_by_target params item :
  get_params_body schema inv params item
  = match target_of schema inv item with
    | Direct key => Ok (PyDict.setitem params key (Leaf (snd item)))
    | Nested g f =>
        match PyDict.getitem params g with
        | None => Ok (PyDict.setitem params g (Group [(f, snd item)]))
        | Some (Group d) =>
            Ok (PyDict.setitem params g
                  (Group (PyDict.setitem d f (snd item))))
        | Some (Leaf _) => Raise TypeError
        end
    | Unsplittable => Raise ValueError
    | Ignored => Ok params
    end.
Proof.
  destruct item as [arg value]. unfold get_params_body, target_of.
  destruct (PyDict.contains schema arg && negb (is_None value));
    [reflexivity|].
  destruct (PyDict.getitem inv arg) as [path|]; [|reflexivity].
  destruct (PyStr.contains "." path); [|reflexivity].
  unfold split_pair.
  destruct (PyStr.split "." path) as [|g [|f [|x rest]]]; try reflexivity.
  cbn [bind snd]. unfold PyDict.contains, setitem_nested.
  destruct (PyDict.getitem params g) as [[v0|d]|] eqn:Eg; cbn [negb].
  - rewrite Eg. reflexivity.
  - rewrite Eg. reflexivity.
  - rewrite getitem_setitem_eq, setitem_setitem_eq. reflexivity.
Qed.

(** When one run of the loop body returns. *)
Lemma body_ok_iff params item :
  (exists params', get_params_body schema inv params item = Ok params')
  <-> target_of schema inv item <> Unsplittable
      /\ (forall g f v, target_of schema inv item = Nested g f ->
                        PyDict.getitem params g <> Some (Leaf v)).
Proof.
  rewrite body_by_target.
  destruct (target_of schema inv item) as [key|g f| |]; split.
  - intros _. split; [discriminate|]. intros g f v H. discriminate H.
  - eauto.
  - intros [p H]. split; [discriminate|].
    intros g' f' v Heq. injection Heq as <- <-. intros Hg.
    rewrite Hg in H. discriminate H.
  - intros [_ H].
    destruct (PyDict.getitem params g) as [[v0|d]|] eqn:Eg; eauto.
    exfalso. apply (H g f v0 eq_refl). exact Eg.
  - intros [p H]. discriminate H.
  - intros [H _]. contradiction.
  - intros _. split; [discriminate|]. intros g f v H. discriminate H.
  - eauto.
Qed.

(** A plain value under a key stays a plain value as long as the loop
    body returns. *)
Lemma leaf_persists params item params' g v :
  get_params_body schema inv params item = Ok params' ->
  PyDict.getitem params g = Some (Leaf v) ->
  exists v', PyDict.getitem params' g = Some (Leaf v').
Proof.
  rewrite body_by_target. intros H Hg.
  destruct (target_of schema inv item) as [key|g' f'| |].
  - injection H as <-. destruct (String.eqb key g) eqn:E.
    + apply String.eqb_eq in E. subst key. rewrite getitem_setitem_eq. eauto.
    + apply String.eqb_neq in E. rewrite getitem_setitem_ne by exact E. eauto.
  - destruct (String.eqb g' g) eqn:E.
    + apply String.eqb_eq in E. subst g'. rewrite Hg in H. discriminate H.
    + apply String.eqb_neq in E.
      destruct (PyDict.getitem params g') as [[v0|d]|];
        try discriminate H; injection H as <-;
        rewrite getitem_setitem_ne by exact E; eauto.
  - discriminate H.
  - injection H as <-. eauto.
Qed.

(** A plain value under a key was there before, or the argument was
    assigned to this key. *)
Lemma leaf_origin params item params' g v :
  get_params_body schema inv params item = Ok params' ->
  PyDict.getitem params' g = Some (Leaf v) ->
  (exists v0, PyDict.getitem params g = Some (Leaf v0))
  \/ target_of schema inv item = Direct g.
Proof.
  rewrite body_by_target. intros H Hg.
  destruct (target_of schema inv item) as [key|g' f'| |].
  - injection H as <-. destruct (String.eqb key g) eqn:E.
    + apply String.eqb_eq in E. subst key. right. reflexivity.
    + apply String.eqb_neq in E. rewrite getitem_setitem_ne in Hg by exact E.
      eauto.
  - destruct (String.eqb g' g) eqn:E.
    + apply String.eqb_eq in E. subst g'.
      destruct (PyDict.getitem params g) as [[v0|d]|];
        try discriminate H; injection H as <-;
        rewrite getitem_setitem_eq in Hg; discriminate Hg.
    + apply String.eqb_neq in E.
      destruct (PyDict.getitem params g') as [[v0|d]|];
        try discriminate H; injection H as <-;
        rewrite getitem_setitem_ne in Hg by exact E; eauto.
  - discriminate H.
  - injection H as <-. eauto.
Qed.

(** The resolver started on accumulated parameters returns exactly when
    no path fails to split, no assignment under a key is followed by a
    store into a field of that key, and no store goes into a key that
    already holds a plain value. *)
Lemma for_each_ok_iff args :
  forall params0,
  (exists params,
      for_each (get_params_body schema inv) args params0 = Ok params)
  <-> Forall (fun a => target_of schema inv a <> Unsplittable) args
      /\ ForallOrdPairs
           (fun a b => clashes (target_of schema inv a)
                               (target_of schema inv b) = false) args
      /\ (forall b g f v,
            In b args -> target_of schema inv b = Nested g f ->
            PyDict.getitem params0 g <> Some (Leaf v)).
Proof.
  induction args as [|x rest IH]; intros params0.
  - split.
    + intros _. repeat split; [constructor|constructor|].
      intros b g f v [].
    + intros _. exists params0. reflexivity.
  - cbn [for_each]. split.
    + intros [p Hp].
      destruct (get_params_body schema inv params0 x) as [p1|e] eqn:Ex;
        [|discriminate Hp].
      cbn [bind] in Hp.
      destruct (proj1 (IH p1) (ex_intro _ p Hp)) as (Hsplit & Hord & Hleaf).
      destruct (proj1 (body_ok_iff params0 x) (ex_intro _ p1 Ex))
        as [Hx Hxleaf].
      split; [constructor; assumption|]. split.
      * constructor; [|exact Hord].
        apply Forall_forall. intros b Hb. unfold clashes.
        destruct (target_of schema inv x) as [k| | |] eqn:Tx;
          try reflexivity.
        destruct (target_of schema inv b) as [|g f| |] eqn:Tb;
          try reflexivity.
        apply String.eqb_neq. intros ->.
        rewrite body_by_target, Tx in Ex. injection Ex as <-.
        apply (Hleaf b g f (snd x) Hb Tb). apply getitem_setitem_eq.
      * intros b g f v [<-|Hb] Tb Hg.
        -- exact (Hxleaf g f v Tb Hg).
        -- destruct (leaf_persists _ _ _ _ _ Ex Hg) as [v' Hg'].
           exact (Hleaf b g f v' Hb Tb Hg').
    + intros (Hsplit & Hord & Hleaf).
      inversion Hsplit as [|x0 rest0 Hx Hrest]; subst.
      inversion Hord as [|x0 rest0 Hxrest Hord']; subst.
      destruct (proj2 (body_ok_iff params0 x)) as [p1 Ex].
      { split; [exact Hx|]. intros g f v Tx.
        apply (Hleaf x g f v (or_introl eq_refl) Tx). }
      rewrite Ex. cbn [bind]. apply IH.
      split; [exact Hrest|]. split; [exact Hord'|].
      intros b g f v Hb Tb Hg.
      destruct (leaf_origin _ _ _ _ _ Ex Hg) as [[v0 Hg0]|Tx].
      * exact (Hleaf b g f v0 (or_intror Hb) Tb Hg0).
      * rewrite Forall_forall in Hxrest. specialize (Hxrest b Hb).
        rewrite Tx, Tb in Hxrest. cbn in Hxrest.
        rewrite String.eqb_refl in Hxrest. discriminate Hxrest.
Qed.

(** The first exception of a loop is raised by its body. *)
Lemma for_each_raise {A S} (body : S -> A -> result S) (xs : list A) :
  forall s e,
  for_each body xs s = Raise e ->
  exists s' x, In x xs /\ body s' x = Raise e.
Proof.
  induction xs as [|x xs IH]; intros s e H; [discriminate H|].
  cbn [for_each] in H. destruct (body s x) as [s1|e1] eqn:Ex.
  - destruct (IH _ _ H) as (s' & y & Hin & Hy).
    exists s', y. split; [right; exact Hin|exact Hy].
  - injection H as <-. exists s, x. split; [left; reflexivity|exact Ex].
Qed.

End Targets.

Section Delivery.

Variable schema : ParamSchema.
Variable inv : PyDict.t string.

(** After one run of the loop body the value is at its place. *)
Lemma body_reads params item params' :
  get_params_body schema inv params item = Ok params' ->
  target_of schema inv item <> Ignored ->
  read_target params' (target_of schema inv item) = Some (snd item).
Proof.
  rewrite body_by_target. intros H Hne.
  destruct (target_of schema inv item) as [key|g f| |].
  - injection H as <-. cbn. rewrite getitem_setitem_eq. reflexivity.
  - cbn. destruct (PyDict.getitem params g) as [[v0|d]|];
      try discriminate H; injection H as <-;
      rewrite getitem_setitem_eq.
    + apply getitem_setitem_eq.
    + cbn. rewrite String.eqb_refl. reflexivity.
  - discriminate H.
  - contradiction.
Qed.

(** One run of the loop body leaves every place alone that its own
    target does not interfere with. *)
Lemma body_frame params item params' t :
  get_params_body schema inv params item = Ok params' ->
  interferes t (target_of schema inv item) = false ->
  read_target params' t = read_target params t.
Proof.
  rewrite body_by_target. intros H Hfree.
  destruct (target_of schema inv item) as [key|g f| |].
  - injection H as <-. destruct t as [k|g0 f0| |]; try reflexivity;
      cbn in Hfree; apply String.eqb_neq in Hfree; cbn;
      rewrite getitem_setitem_ne by (intros E; apply Hfree; symmetry; exact E);
      reflexivity.
  - destruct t as [k|g0 f0| |]; try reflexivity; cbn in Hfree.
    + apply String.eqb_neq in Hfree. cbn.
      destruct (PyDict.getitem params g) as [[v0|d]|];
        try discriminate H; injection H as <-;
        rewrite getitem_setitem_ne
          by (intros E; apply Hfree; symmetry; exact E);
        reflexivity.
    + cbn. destruct (String.eqb g0 g) eqn:Eg.
      * apply String.eqb_eq in Eg. subst g0.
        cbn [andb] in Hfree. apply String.eqb_neq in Hfree.
        destruct (PyDict.getitem params g) as [[v0|d]|];
          try discriminate H; injection H as <-;
          rewrite getitem_setitem_eq.
        -- apply getitem_setitem_ne. intros E. apply Hfree. symmetry. exact E.
        -- cbn. destruct (String.eqb f f0) eqn:Ef; [|reflexivity].
           apply String.eqb_eq in Ef. exfalso. apply Hfree. symmetry. exact Ef.
      * apply String.eqb_neq in Eg.
        destruct (PyDict.getitem params g) as [[v0|d]|];
          try discriminate H; injection H as <-;
          rewrite getitem_setitem_ne
            by (intros E; apply Eg; symmetry; exact E);
          reflexivity.
  - discriminate H.
  - injection H as <-. reflexivity.
Qed.

Lemma for_each_frame args t :
  forall params0 params,
  for_each (get_params_body schema inv) args params0 = Ok params ->
  Forall (fun b => interferes t (target_of schema inv b) = false) args ->
  read_target params t = read_target params0 t.
Proof.
  induction args as [|x rest IH]; intros params0 params H Hfree.
  - injection H as <-. reflexivity.
  - cbn [for_each] in H.
    destruct (get_params_body schema inv params0 x) as [p1|e] eqn:Ex;
      [|discriminate H].
    inversion Hfree as [|x0 rest0 Hx Hrest]; subst.
    rewrite (IH p1 params H Hrest). apply (body_frame _ _ _ _ Ex Hx).
Qed.

Lemma for_each_delivers args :
  forall params0 params,
  for_each (get_params_body schema inv) args params0 = Ok params ->
  ForallOrdPairs
    (fun a b => interferes (target_of schema inv a)
                           (target_of schema inv b) = false) args ->
  forall item,
    In item args -> target_of schema inv item <> Ignored ->
    read_target params (target_of schema inv item) = Some (snd item).
Proof.
  induction args as [|x rest IH]; intros params0 params H Hord item Hin Hne.
  - contradiction.
  - cbn [for_each] in H.
    destruct (get_params_body schema inv params0 x) as [p1|e] eqn:Ex;
      [|discriminate H].
    inversion Hord as [|x0 rest0 Hx Hord']; subst.
    destruct Hin as [<-|Hin].
    + rewrite (for_each_frame rest _ p1 params H Hx).
      apply (body_reads _ _ _ Ex Hne).
    + apply (IH p1 params H Hord' item Hin Hne).
Qed.

(** Interference covers the clash of a direct assignment with a later
    store into the same key. *)
Lemma clashes_interferes t1 t2 :
  interferes t1 t2 = false -> clashes t1 t2 = false.
Proof. destruct t1, t2; cbn; auto. Qed.

Lemma ordered_pairs_weaken {A} (R Q : A -> A -> Prop) (xs : list A) :
  (forall a b, R a b -> Q a b) ->
  ForallOrdPairs R xs -> ForallOrdPairs Q xs.
Proof.
  intros HRQ H. induction H as [|x xs Hx _ IH]; constructor; [|exact IH].
  apply Forall_forall. intros b Hb. apply HRQ.
  rewrite Forall_forall in Hx. apply Hx. exact Hb.
Qed.

(** A key of the parameters was there before the loop, or is the key or
    the group of the target of an argument. *)
Lemma for_each_keys args :
  forall params0 params k,
  for_each (get_params_body schema inv) args params0 = Ok params ->
  PyDict.contains params k = true ->
  PyDict.contains params0 k = true
  \/ exists item,
       In item args
       /\ (target_of schema inv item = Direct k
           \/ exists f, target_of schema inv item = Nested k f).
Proof.
  induction args as [|x rest IH]; intros params0 params k H Hk.
  - injection H as <-. left. exact Hk.
  - cbn [for_each] in H.
    destruct (get_params_body schema inv params0 x) as [p1|e] eqn:Ex;
      [|discriminate H].
    destruct (IH p1 params k H Hk) as [Hp1|(item & Hin & Ht)].
    + assert (Hstep : PyDict.contains params0 k = true
                      \/ target_of schema inv x = Direct k
                      \/ exists f, target_of schema inv x = Nested k f).
      { rewrite body_by_target in Ex. unfold PyDict.contains in *.
        destruct (target_of schema inv x) as [key|g f| |].
        - injection Ex as <-. destruct (String.eqb key k) eqn:E.
          + apply String.eqb_eq in E. subst key. right. left. reflexivity.
          + apply String.eqb_neq in E.
            rewrite getitem_setitem_ne in Hp1 by exact E. left. exact Hp1.
        - destruct (String.eqb g k) eqn:E.
          + apply String.eqb_eq in E. subst g. right. right. eauto.
          + apply String.eqb_neq in E.
            destruct (PyDict.getitem params0 g) as [[v0|d]|];
              try discriminate Ex; injection Ex as <-;
              rewrite getitem_setitem_ne in Hp1 by exact E;
              left; exact Hp1.
        - discriminate Ex.
        - injection Ex as <-. left. exact Hp1. }
      destruct Hstep as [H0|Hx]; [left; exact H0|].
      right. exists x. split; [left; reflexivity|exact Hx].
    + right. exists item. split; [right; exact Hin|exact Ht].
Qed.

End Delivery.

(* ===================================================================== *)
(** ** The resolver as a whole *)
(* ===================================================================== *)

Section ResolverWhole.

Variable schema : ParamSchema.
Variable mapping : ParamMapping.

(** What the branch taken says about the tables. *)
Lemma target_origin arg value :
  match target_of schema (inv_params_mapping mapping) (arg, value) with
  | Direct k =>
      (k = arg /\ PyDict.contains schema arg = true /\ value <> PNone)
      \/ In (k, arg) mapping
  | Nested g f =>
      exists path, In (path, arg) mapping /\ PyStr.split "." path = [g; f]
  | _ => True
  end.
Proof.
  unfold target_of.
  destruct (PyDict.contains schema arg) eqn:Es; cbn [andb].
  - destruct value; cbn [is_None negb]; cbv iota;
      try (left; repeat split; discriminate).
    destruct (PyDict.getitem (inv_params_mapping mapping) arg)
      as [path|] eqn:Ei; [|exact I].
    destruct (invert_sound mapping [] arg path Ei) as [Hin|Habs];
      [|discriminate Habs].
    destruct (PyStr.contains "." path); [|right; exact Hin].
    destruct (PyStr.split "." path) as [|g [|f [|x rest]]] eqn:Esp;
      try exact I.
    exists path. split; [exact Hin|exact Esp].
  - destruct (PyDict.getitem (inv_params_mapping mapping) arg)
      as [path|] eqn:Ei; [|exact I].
    destruct (invert_sound mapping [] arg path Ei) as [Hin|Habs];
      [|discriminate Habs].
    destruct (PyStr.contains "." path); [|right; exact Hin].
    destruct (PyStr.split "." path) as [|g [|f [|x rest]]] eqn:Esp;
      try exact I.
    exists path. split; [exact Hin|exact Esp].
Qed.

(** X3.  [_get_params] returns a result exactly when no argument leads
    to a canonical path with more than one dot and no argument that is
    assigned directly under a key is followed, later in the namespace, by
    an argument stored in a field of that same key. *)
Theorem resolver_succeeds_iff (args : PyDict.t pyval) :
  (exists params, _get_params schema mapping args = Ok params)
  <-> Forall (fun a => target_of schema (inv_params_mapping mapping) a
                       <> Unsplittable) args
      /\ ForallOrdPairs
           (fun a b =>
              clashes (target_of schema (inv_params_mapping mapping) a)
                      (target_of schema (inv_params_mapping mapping) b)
              = false) args.
Proof.
  unfold _get_params. rewrite for_each_ok_iff. split.
  - intros (H1 & H2 & _). split; assumption.
  - intros (H1 & H2). repeat split; try assumption.
    intros b g f v _ _ Habs. discriminate Habs.
Qed.

(** X4.  The only exceptions [_get_params] raises are [TypeError] (a
    store into a key that holds a plain value) and [ValueError] (a path
    that does not unpack into two names). *)
Theorem resolver_raises_only (args : PyDict.t pyval) (e : exn) :
  _get_params schema mapping args = Raise e ->
  e = TypeError \/ e = ValueError.
Proof.
  unfold _get_params. intros H.
  destruct (for_each_raise _ _ _ _ H) as (params & item & _ & Hbody).
  rewrite body_by_target in Hbody.
  destruct (target_of schema (inv_params_mapping mapping) item)
    as [key|g f| |]; try discriminate Hbody.
  - destruct (PyDict.getitem params g) as [[v0|d]|];
      try discriminate Hbody.
    injection Hbody as <-. left. reflexivity.
  - injection Hbody as <-. right. reflexivity.
Qed.

(** X5.  When no canonical path has more than one dot and no two
    arguments go to the same place (the same key, a key and a field of
    it, or the same field of the same group), [_get_params] returns and
    every recognised argument is found in the result with its value: at
    [result[key]] or at [result[group][field]]. *)
Theorem resolver_delivers (args : PyDict.t pyval) :
  Forall (fun a => target_of schema (inv_params_mapping mapping) a
                   <> Unsplittable) args ->
  ForallOrdPairs
    (fun a b =>
       interferes (target_of schema (inv_params_mapping mapping) a)
                  (target_of schema (inv_params_mapping mapping) b)
       = false) args ->
  exists params,
    _get_params schema mapping args = Ok params
    /\ forall arg value,
         In (arg, value) args ->
         target_of schema (inv_params_mapping mapping) (arg, value)
         <> Ignored ->
         read_target params
           (target_of schema (inv_params_mapping mapping) (arg, value))
         = Some value.
Proof.
  intros Hsplit Hfree.
  destruct (proj2 (for_each_ok_iff schema (inv_params_mapping mapping)
                     args [])) as [params Hp].
  { split; [exact Hsplit|]. split.
    - apply (ordered_pairs_weaken _ _ _
               (fun a b => clashes_interferes _ _) Hfree).
    - intros b g f v _ _ Habs. discriminate Habs. }
  exists params. split; [exact Hp|].
  intros arg value Hin Hne.
  apply (for_each_delivers schema (inv_params_mapping mapping) args
           [] params Hp Hfree (arg, value) Hin Hne).
Qed.

(** X6.  Every key of the result comes from an argument and from the
    tables: it is the name of an argument that is a schema key with a
    non-null value, or it is the canonical path, or the group of the
    canonical path, that [PARAMS_MAPPING] maps to the name of an
    argument. *)
Theorem resolver_keys_known (args : PyDict.t pyval) (params : Params)
    (k : string) :
  _get_params schema mapping args = Ok params ->
  PyDict.contains params k = true ->
  exists arg value,
    In (arg, value) args
    /\ ((k = arg /\ PyDict.contains schema arg = true /\ value <> PNone)
        \/ exists path,
             In (path, arg) mapping
             /\ (path = k \/ exists f, PyStr.split "." path = [k; f])).
Proof.
  intros Hp Hk.
  destruct (for_each_keys schema (inv_params_mapping mapping) args
              [] params k Hp Hk) as [Habs|([arg value] & Hin & Ht)];
    [discriminate Habs|].
  exists arg, value. split; [exact Hin|].
  pose proof (target_origin arg value) as Ho.
  destruct Ht as [Ht|[f Ht]]; rewrite Ht in Ho.
  - destruct Ho as [Hdirect|Hmapped]; [left; exact Hdirect|].
    right. exists k. split; [exact Hmapped|left; reflexivity].
  - destruct Ho as (path & Hmapped & Hsp).
    right. exists path. split; [exact Hmapped|right; exists f; exact Hsp].
Qed.

(** X7.  An argument whose value is [None] and whose name is not a
    mapped externally facing name is inert, schema key or not: the
    resolver gives the same outcome with and without it. *)
Theorem null_unmapped_inert before after arg :
  PyDict.getitem (inv_params_mapping mapping) arg = None ->
  _get_params schema mapping (before ++ (arg, PNone) :: after)
  = _get_params schema mapping (before ++ after).
Proof.
  intros Hm. unfold _get_params. rewrite !for_each_app.
  destruct (for_each (get_params_body schema (inv_params_mapping mapping))
                     before []) as [params|e]; cbn [bind for_each];
    [|reflexivity].
  unfold get_params_body at 1. cbn [is_None negb].
  rewrite andb_false_r, Hm. reflexivity.
Qed.

(** X8.  When none of the attributes that [main] itself defines
    ([media_file], [model], [processors] and the four output switches)
    is a schema key or a mapped name, the parameters that [run] hands to
    the engine depend on the attributes of the schema flags only. *)
Theorem cli_attributes_not_forwarded (args : Namespace) :
  (forall name,
      In name cli_attributes ->
      PyDict.contains schema name = false
      /\ PyDict.getitem (inv_params_mapping mapping) name = None) ->
  _get_params schema mapping (args_dict args)
  = _get_params schema mapping (schema_attrs args).
Proof.
  intros H. unfold _get_params, args_dict. cbn [app for_each].
  repeat (rewrite body_unrecognized;
          [cbn [bind]
          | apply H; cbn; auto 10
          | apply H; cbn; auto 10 ]).
  reflexivity.
Qed.

End ResolverWhole.

(** X1, witness: two canonical paths carry the name [speed_up]; the later
    one is kept. *)
Lemma inverse_mapping_last_wins_witness :
  PyDict.getitem
    (inv_params_mapping
       [("vad.speed_up", "speed_up"); ("speed_up", "speed_up");
        ("language", "lang")])
    "speed_up"
  = Some "speed_up".
Proof.
  apply (inverse_mapping_last_wins
           [("vad.speed_up", "speed_up")] "speed_up" "speed_up"
           [("language", "lang")]).
  intros [H|[]]. discriminate H.
Defined.

(** X4, witness: the clash of a plain [vad] with [vad.speed_up]. *)
Lemma resolver_raises_only_witness :
  _get_params Demo.group_schema Demo.group_mapping
    [("vad", PInt 5); ("speed_up", PBool true)] = Raise TypeError
  /\ (TypeError = TypeError \/ TypeError = ValueError).
Proof.
  split; [reflexivity|].
  apply (resolver_raises_only Demo.group_schema Demo.group_mapping
           [("vad", PInt 5); ("speed_up", PBool true)] TypeError).
  reflexivity.
Defined.

(** X5, witness: two fields of one group, a plain parameter and an
    unknown attribute. *)
Lemma resolver_delivers_witness :
  exists params,
    _get_params Demo.beam_schema Demo.beam_mapping Demo.beam_args
    = Ok params
    /\ read_target params (Nested "beam_search" "beam_size") = Some (PInt 8)
    /\ read_target params (Nested "beam_search" "patience") = Some (PInt 3)
    /\ read_target params (Direct "n_threads") = Some (PInt 2).
Proof.
  destruct (resolver_delivers Demo.beam_schema Demo.beam_mapping
              Demo.beam_args) as (params & Hp & Hall).
  - repeat constructor; vm_compute; discriminate.
  - repeat constructor.
  - exists params. split; [exact Hp|]. split; [|split].
    + apply (Hall "beam_size" (PInt 8)); [cbn; auto|].
      vm_compute. discriminate.
    + apply (Hall "patience" (PInt 3)); [cbn; auto 10|].
      vm_compute. discriminate.
    + apply (Hall "n_threads" (PInt 2)); [cbn; auto|].
      vm_compute. discriminate.
Defined.

(** X6, witness: the key [beam_search] of the result is the group of the
    path mapped to the argument [beam_size]. *)
Lemma resolver_keys_known_witness :
  exists arg value,
    In (arg, value) Demo.beam_args
    /\ (("beam_search" = arg
         /\ PyDict.contains Demo.beam_schema arg = true /\ value <> PNone)
        \/ exists path,
             In (path, arg) Demo.beam_mapping
             /\ (path = "beam_search"
                 \/ exists f, PyStr.split "." path = ["beam_search"; f])).
Proof.
  apply (resolver_keys_known Demo.beam_schema Demo.beam_mapping
           Demo.beam_args
           [("n_threads", Leaf (PInt 2));
            ("beam_search",
             Group [("beam_size", PInt 8); ("patience", PInt 3)])]
           "beam_search").
  - reflexivity.
  - reflexivity.
Defined.

(** X7, witness: [n_threads] left at [None] does not reach the result. *)
Lemma null_unmapped_inert_witness :
  _get_params Demo.schema Demo.mapping
    [("n_threads", PNone); ("speed_up", PBool true)]
  = _get_params Demo.schema Demo.mapping [("speed_up", PBool true)].
Proof.
  apply (null_unmapped_inert Demo.schema Demo.mapping
           [] [("speed_up", PBool true)] "n_threads").
  reflexivity.
Defined.

(** X8, witness: the demonstration namespace. *)
Lemma cli_attributes_not_forwarded_witness :
  _get_params Demo.schema Demo.mapping
    (args_dict (Demo.args Demo.abc true false))
  = _get_params Demo.schema Demo.mapping [("speed_up", PBool true)].
Proof.
  apply (cli_attributes_not_forwarded Demo.schema Demo.mapping
           (Demo.args Demo.abc true false)).
  intros name Hin. cbn in Hin.
  repeat (destruct Hin as [<-|Hin]; [split; reflexivity|]).
  contradiction.
Defined.

(* ===================================================================== *)
(** ** The schema arguments of the parser *)
(* ===================================================================== *)

Lemma replace_removes (old new : ascii) (s : string) :
  Ascii.eqb new old = false ->
  PyStr.contains old (PyStr.replace old new s) = false.
Proof.
  intros Hne. induction s as [|a s IH]; [reflexivity|].
  cbn [PyStr.replace PyStr.contains].
  destruct (Ascii.eqb a old) eqn:Ea; [rewrite Hne|rewrite Ea]; exact IH.
Qed.

Lemma replace_back (old new : ascii) (s : string) :
  PyStr.contains new s = false ->
  PyStr.replace new old (PyStr.replace old new s) = s.
Proof.
  induction s as [|a s IH]; [reflexivity|].
  cbn [PyStr.replace PyStr.contains].
  destruct (Ascii.eqb a new) eqn:En; [discriminate|].
  intros H. rewrite (IH H). f_equal.
  destruct (Ascii.eqb a old) eqn:Eo.
  - rewrite Ascii.eqb_refl. apply Ascii.eqb_eq in Eo. symmetry. exact Eo.
  - rewrite En. reflexivity.
Qed.

Section Parser.

Variable mapping : ParamMapping.

(** What the loop body registers for one entry. *)
Lemma schema_arguments_shape item added :
  schema_arguments mapping item = Ok added ->
  forall a, In a added ->
    action a = None /\ nargs a = None
    /\ exists name, name_or_flags a = [flag_of name].
Proof.
  destruct item as [param fields]. unfold schema_arguments.
  destruct (is_dict (type_ fields)).
  - destruct (default_ fields) as [v|items]; [discriminate|].
    intros H a Hin. injection H as <-.
    apply in_flat_map in Hin. destruct Hin as ([k v] & _ & Hin).
    unfold subkey_arguments in Hin.
    destruct (PyDict.getitem mapping (param ++ "." ++ k)%string)
      as [[|c rest]|]; cbn in Hin; try contradiction.
    destruct Hin as [<-|[]].
    split; [reflexivity|]. split; [reflexivity|].
    exists (String c rest). reflexivity.
  - destruct (PyDict.getitem mapping param) as [mapped|];
      intros H a Hin; injection H as <-;
      destruct Hin as [<-|[]];
      (split; [reflexivity|]; split; [reflexivity|];
       eexists; reflexivity).
Qed.

(** The only failure of the loop body. *)
Lemma schema_arguments_raise item e :
  schema_arguments mapping item = Raise e ->
  e = AttributeError
  /\ is_dict (type_ (snd item)) = true
  /\ exists v, default_ (snd item) = Leaf v.
Proof.
  destruct item as [param fields]. unfold schema_arguments. cbn [snd].
  destruct (is_dict (type_ fields)).
  - destruct (default_ fields) as [v|items]; [|discriminate].
    intros H. injection H as <-. eauto.
  - destruct (PyDict.getitem mapping param); discriminate.
Qed.

(** What the loop body derives for an entry, as flags. *)
Lemma schema_arguments_derived item added :
  schema_arguments mapping item = Ok added ->
  flat_map name_or_flags added = derived_flags mapping item.
Proof.
  destruct item as [param fields].
  unfold schema_arguments, derived_flags, external_name.
  destruct (is_dict (type_ fields)).
  - destruct (default_ fields) as [v|items]; [discriminate|].
    intros H. injection H as <-. apply subkey_flags.
  - destruct (PyDict.getitem mapping param);
      intros H; injection H as <-; reflexivity.
Qed.

Lemma existsb_eqb_In (flag : string) (known : list string) :
  existsb (String.eqb flag) known = false <-> ~ In flag known.
Proof.
  induction known as [|k known IH]; cbn [existsb In].
  - split; [intros _ []|reflexivity].
  - rewrite orb_false_iff, IH, String.eqb_neq. split.
    + intros [Hne Hnot] [Heq|Hin]; [apply Hne; symmetry; exact Heq|].
      exact (Hnot Hin).
    + intros H. split; [intros Heq; apply H; left; symmetry; exact Heq|].
      intros Hin. apply H. right. exact Hin.
Qed.

(** [add_argument] on an argument given by one derived flag. *)
Lemma add_flag parser a name :
  name_or_flags a = [flag_of name] ->
  add_argument parser a
  = if negb (has_dest (flag_of name)) then Raise ValueError
    else if existsb (String.eqb (flag_of name)) (registered parser)
         then Raise ArgumentError
         else Ok (parser ++ [a]).
Proof.
  intros Hname. unfold add_argument, option_strings, has_dest.
  rewrite Hname. unfold flag_of. cbn [append starts_with_hyphen].
  cbn [Ascii.eqb Bool.eqb andb]. cbn [for_each check_option_string bind].
  cbn [Ascii.eqb Bool.eqb andb].
  unfold dest_option_string. cbn [find is_long_option].
  cbn [Ascii.eqb Bool.eqb andb]. cbn [existsb]. rewrite orb_false_r.
  rewrite negb_involutive. reflexivity.
Qed.

Lemma registered_snoc parser a name :
  name_or_flags a = [flag_of name] ->
  registered (parser ++ [a]) = registered parser ++ [flag_of name].
Proof.
  intros Hname. unfold registered. rewrite flat_map_app, app_assoc.
  f_equal. cbn [flat_map]. rewrite app_nil_r.
  unfold option_strings. rewrite Hname. reflexivity.
Qed.

(** A run of calls for derived flags returns exactly when every flag
    has a destination, no flag occurs twice and none is registered
    already. *)
Lemma add_all_iff added :
  Forall (fun a => exists name, name_or_flags a = [flag_of name]) added ->
  forall parser,
  (exists parser', for_each add_argument added parser = Ok parser')
  <-> Forall (fun flag => has_dest flag = true)
             (flat_map name_or_flags added)
      /\ NoDup (flat_map name_or_flags added)
      /\ (forall flag, In flag (flat_map name_or_flags added) ->
                       ~ In flag (registered parser)).
Proof.
  induction 1 as [|a added [name Hname] _ IH]; intros parser.
  - split; [|intros _; exists parser; reflexivity].
    intros _. repeat split; [constructor|constructor|].
    intros flag [].
  - cbn [for_each flat_map]. rewrite Hname, (add_flag parser a name Hname).
    cbn [app]. split.
    + intros [parser' H].
      destruct (has_dest (flag_of name)) eqn:Ed; [|discriminate H].
      cbn [negb] in H.
      destruct (existsb (String.eqb (flag_of name)) (registered parser))
        eqn:Er; [discriminate H|].
      cbn [bind] in H. apply existsb_eqb_In in Er.
      destruct (proj1 (IH _) (ex_intro _ parser' H)) as (Hd & Hn & Hfree).
      rewrite (registered_snoc parser a name Hname) in Hfree.
      split; [constructor; assumption|]. split.
      * constructor; [|exact Hn]. intros Hin.
        apply (Hfree _ Hin). apply in_or_app. right. left. reflexivity.
      * intros flag [<-|Hin]; [exact Er|]. intros Hreg.
        apply (Hfree _ Hin). apply in_or_app. left. exact Hreg.
    + intros (Hd & Hn & Hfree).
      inversion Hd as [|f fs Hd1 Hd2]; subst.
      inversion Hn as [|f fs Hn1 Hn2]; subst.
      rewrite Hd1. cbn [negb].
      rewrite (proj2 (existsb_eqb_In _ _) (Hfree _ (or_introl eq_refl))).
      cbn [bind]. apply IH. split; [exact Hd2|]. split; [exact Hn2|].
      intros flag Hin Hreg.
      rewrite (registered_snoc parser a name Hname) in Hreg.
      apply in_app_or in Hreg. destruct Hreg as [Hreg|[<-|[]]].
      * exact (Hfree flag (or_intror Hin) Hreg).
      * exact (Hn1 Hin).
Qed.

(** The loop over the schema is the run of all the calls it derives. *)
Lemma loop_flatten schema per_entry :
  Forall2 (fun item added => schema_arguments mapping item = Ok added)
          schema per_entry ->
  forall parser,
  for_each (fun parser item =>
              bind (schema_arguments mapping item)
                   (fun added => for_each add_argument added parser))
           schema parser
  = for_each add_argument (concat per_entry) parser.
Proof.
  induction 1 as [|item added schema per Hadded _ IH]; intros parser.
  - reflexivity.
  - cbn [for_each concat]. rewrite Hadded, for_each_app. cbn [bind].
    destruct (for_each add_argument added parser) as [p1|e];
      [cbn [bind]; apply IH|reflexivity].
Qed.

Lemma per_entry_flags schema per_entry :
  Forall2 (fun item added => schema_arguments mapping item = Ok added)
          schema per_entry ->
  Forall (fun a => exists name, name_or_flags a = [flag_of name])
         (concat per_entry)
  /\ flat_map name_or_flags (concat per_entry)
     = flat_map (derived_flags mapping) schema
  /\ dict_defaults schema.
Proof.
  induction 1 as [|item added schema per Hadded _ (IH1 & IH2 & IH3)].
  - repeat split; [constructor|]. intros param fields [].
  - cbn [concat flat_map]. split; [|split].
    + apply Forall_app. split; [|exact IH1].
      apply Forall_forall. intros a Ha.
      apply (schema_arguments_shape item added Hadded a Ha).
    + rewrite flat_map_app, IH2, (schema_arguments_derived _ _ Hadded).
      reflexivity.
    + intros param fields [->|Hin] Hty; [|exact (IH3 _ _ Hin Hty)].
      unfold schema_arguments in Hadded. rewrite Hty in Hadded.
      destruct (default_ fields) as [v|items]; [discriminate Hadded|eauto].
Qed.

Lemma schema_arguments_total schema :
  dict_defaults schema ->
  exists per_entry,
    Forall2 (fun item added => schema_arguments mapping item = Ok added)
            schema per_entry.
Proof.
  induction schema as [|[param fields] schema IH]; intros Hd.
  - exists []. constructor.
  - destruct (IH (fun p f Hin => Hd p f (or_intror Hin))) as [per Hper].
    assert (Hhead : exists added,
               schema_arguments mapping (param, fields) = Ok added).
    { unfold schema_arguments.
      destruct (is_dict (type_ fields)) eqn:Ety.
      - destruct (Hd param fields (or_introl eq_refl) Ety) as [items ->].
        eauto.
      - destruct (PyDict.getitem mapping param); eauto. }
    destruct Hhead as [added Hadded].
    exists (added :: per). constructor; assumption.
Qed.

(** X9.  Whatever the tables, the arguments that [main] registers for
    the schema come after its own eight arguments, and each of them is a
    plain value option: no [action], no [nargs], and exactly one name, a
    long flag [--name] in which [name] contains no underscore. *)
Theorem schema_arguments_are_long_options schema parser :
  main_arguments schema mapping = Ok parser ->
  exists added,
    parser = fixed_arguments ++ added
    /\ forall a, In a added ->
         action a = None /\ nargs a = None
         /\ exists name,
              name_or_flags a = [("--" ++ name)%string]
              /\ PyStr.contains "_" name = false.
Proof.
  intros H.
  destruct (main_arguments_ok mapping schema parser H) as (per & -> & Hall).
  exists (concat per). split; [reflexivity|].
  intros a Hin. apply in_concat in Hin. destruct Hin as (added & Hadded & Ha).
  assert (Hitem : exists item, schema_arguments mapping item = Ok added).
  { clear -Hall Hadded. induction Hall as [|item l schema' per' Hl _ IH].
    - contradiction.
    - destruct Hadded as [<-|Hin]; [eauto|apply IH; exact Hin]. }
  destruct Hitem as [item Hitem].
  destruct (schema_arguments_shape item added Hitem a Ha)
    as (Hact & Hn & name & Hname).
  split; [exact Hact|]. split; [exact Hn|].
  exists (PyStr.replace "_" "-" name). split; [exact Hname|].
  apply replace_removes. reflexivity.
Qed.

(** X10.  The registration of [main] completes exactly when every
    dictionary typed schema entry has a dictionary as its default and
    the flags derived for the schema all have something left after
    their leading hyphens, are pairwise different, and differ from the
    option strings that the parser holds already (those of its help
    option and of the fixed arguments).  When it does not complete, the
    exception is the [AttributeError] of [default_.items()], or the
    [ValueError] or [ArgumentError] of [add_argument]. *)
Theorem registration_completes_iff schema :
  ((exists parser, main_arguments schema mapping = Ok parser)
   <-> dict_defaults schema
       /\ Forall (fun flag => has_dest flag = true)
                 (flat_map (derived_flags mapping) schema)
       /\ NoDup (flat_map (derived_flags mapping) schema)
       /\ (forall flag,
              In flag (flat_map (derived_flags mapping) schema) ->
              ~ In flag (registered fixed_arguments)))
  /\ (forall e, main_arguments schema mapping = Raise e ->
                e = AttributeError \/ e = ValueError
                \/ e = ArgumentError).
Proof.
  split; [split|].
  - intros [parser H].
    destruct (main_arguments_ok mapping schema parser H) as (per & _ & Hall).
    destruct (per_entry_flags schema per Hall) as (Hflag & Hflags & Hd).
    split; [exact Hd|]. rewrite <- Hflags.
    apply (add_all_iff (concat per) Hflag fixed_arguments).
    exists parser. rewrite <- (loop_flatten schema per Hall).
    unfold main_arguments in H. rewrite fixed_registration in H. exact H.
  - intros (Hd & Hrest).
    destruct (schema_arguments_total schema Hd) as [per Hall].
    destruct (per_entry_flags schema per Hall) as (Hflag & Hflags & _).
    rewrite <- Hflags in Hrest.
    destruct (proj2 (add_all_iff (concat per) Hflag fixed_arguments) Hrest)
      as [parser Hp].
    exists parser. unfold main_arguments.
    rewrite fixed_registration. cbn [bind].
    rewrite (loop_flatten schema per Hall). exact Hp.
  - intros e H. unfold main_arguments in H.
    rewrite fixed_registration in H. cbn [bind] in H.
    destruct (for_each_raise _ _ _ _ H) as (parser & item & _ & Hbody).
    destruct (schema_arguments mapping item) as [added|e'] eqn:Ea.
    + cbn [bind] in Hbody.
      destruct (for_each_raise _ _ _ _ Hbody) as (p & a & Ha & Hadd).
      destruct (schema_arguments_shape item added Ea a Ha)
        as (_ & _ & name & Hname).
      rewrite (add_flag p a name Hname) in Hadd.
      destruct (negb (has_dest (flag_of name)));
        [injection Hadd as <-; auto|].
      destruct (existsb (String.eqb (flag_of name)) (registered p));
        [injection Hadd as <-; auto|discriminate Hadd].
    + cbn [bind] in Hbody. injection Hbody as <-. left.
      apply (schema_arguments_raise item e' Ea).
Qed.

End Parser.

(** X11.  For a name without hyphen the flag [--name] with its
    underscores replaced by hyphens loses nothing: replacing the hyphens
    of what follows [--] by underscores gives the name back, so two such
    names never share a flag. *)
Theorem flag_round_trip (name : string) :
  PyStr.contains "-" name = false ->
  (exists rest,
      flag_of name = ("--" ++ rest)%string
      /\ PyStr.contains "_" rest = false
      /\ PyStr.replace "-" "_" rest = name)
  /\ (forall other,
        PyStr.contains "-" other = false ->
        flag_of other = flag_of name -> other = name).
Proof.
  intros Hname. split.
  - exists (PyStr.replace "_" "-" name). split; [reflexivity|]. split.
    + apply replace_removes. reflexivity.
    + apply replace_back. exact Hname.
  - intros other Hother Heq. unfold flag_of in Heq. cbn in Heq.
    injection Heq as Heq.
    rewrite <- (replace_back "_" "-" other Hother),
            <- (replace_back "_" "-" name Hname), Heq.
    reflexivity.
Qed.

(** X9, witness: the parser of the demonstration tables. *)
Lemma schema_arguments_are_long_options_witness :
  exists added,
    main_arguments Demo.schema Demo.mapping = Ok (fixed_arguments ++ added)
    /\ forall a, In a added ->
         action a = None /\ nargs a = None
         /\ exists name,
              name_or_flags a = [("--" ++ name)%string]
              /\ PyStr.contains "_" name = false.
Proof.
  destruct (main_arguments Demo.schema Demo.mapping) as [parser|e] eqn:E;
    [|discriminate E].
  destruct (schema_arguments_are_long_options Demo.mapping Demo.schema
              parser E) as (added & -> & Hall).
  exists added. split; [reflexivity|exact Hall].
Defined.

(** X11, witness: [n_threads] and its flag [--n-threads]. *)
Lemma flag_round_trip_witness :
  flag_of "n_threads" = "--n-threads"
  /\ PyStr.replace "-" "_" "n-threads" = "n_threads".
Proof.
  destruct (flag_round_trip "n_threads" eq_refl) as [(rest & Hf & _ & Hb) _].
  split; [reflexivity|].
  cbn in Hf. injection Hf as <-. exact Hb.
Defined.

(* ===================================================================== *)
(** ** The loop on any batch *)
(* ===================================================================== *)

Section AnyBatch.

Variable M : Type.
Variable ops : Model M.
Variable u : utils.t.
Variable args : Namespace.

Lemma if_segs_written bound file :
  forall w, In w (written (if_segs u args bound file)) ->
  exists fmt,
    w = (fmt, bound, file, writer u fmt bound file)
    /\ output_flag args fmt = true /\ bound <> [].
Proof.
  intros w Hin. destruct bound as [|seg bound]; [contradiction|].
  cbn [if_segs] in Hin.
  rewrite (proj1 (output_stuff_effects u args (seg :: bound) file)) in Hin.
  apply in_map_iff in Hin. destruct Hin as (fmt & <- & Hfmt).
  exists fmt. split; [reflexivity|]. split; [|discriminate].
  unfold requested in Hfmt. apply filter_In in Hfmt. apply Hfmt.
Qed.

(** The writer calls of one iteration are those of its dispatch, on the
    value that [segs] has when the iteration ends. *)
Lemma loop_body_written fr file fr1 done c :
  loop_body ops u args fr file = (fr1, done, c) ->
  forall w, In w (written done) ->
  exists fmt bound,
    segs fr1 = Some bound
    /\ w = (fmt, bound, file, writer u fmt bound file)
    /\ output_flag args fmt = true /\ bound <> [].
Proof.
  unfold loop_body.
  destruct (try_block ops args fr file) as [[fr' tried] raised] eqn:Et.
  assert (Htried : written tried = []).
  { unfold try_block in Et.
    destruct (transcribe ops (m fr) file (n_processors args)) as [m1 [s|e]].
    - destruct (print_timings ops m1) as [m2 r2].
      injection Et as _ <- _. reflexivity.
    - injection Et as _ <- _. reflexivity. }
  assert (Hh : written (fst (except_clauses file raised)) = [])
    by (destruct raised as [[]|]; reflexivity).
  destruct (except_clauses file raised) as [handled pending].
  cbn [fst] in Hh. unfold finally_block.
  destruct (segs fr') as [bound|] eqn:Es; intros H; injection H as <- <- _;
    intros w Hin; rewrite !written_app, Htried, Hh in Hin; cbn [app] in Hin.
  - destruct (if_segs_written bound file w Hin) as (fmt & Hw & Hf & Hne).
    exists fmt, bound. repeat split; assumption.
  - contradiction.
Qed.

(** [segs], once bound, stays bound. *)
Lemma loop_body_keeps_bound fr file fr1 done c :
  loop_body ops u args fr file = (fr1, done, c) ->
  segs fr <> None -> segs fr1 <> None.
Proof.
  intros H Hb. destruct (loop_body_segs _ ops u args _ _ _ _ _ H)
    as [Heq|(s & Hs & _)]; congruence.
Qed.

(** With [segs] bound and an engine that raises nothing but
    [Exception]s, an iteration always goes on to the next file. *)
Lemma loop_body_bound fr file fr1 done c :
  raises_only_exceptions ops ->
  segs fr <> None ->
  loop_body ops u args fr file = (fr1, done, c) ->
  c = Next.
Proof.
  intros [Ht Hp] Hb. unfold loop_body, try_block.
  destruct (transcribe ops (m fr) file (n_processors args))
    as [m1 [s|e]] eqn:Etr.
  - destruct (print_timings ops m1) as [m2 [[]|e]] eqn:Ep; cbn [segs].
    + cbn. intros H. injection H as _ _ <-. reflexivity.
    + rewrite (except_exception file e (Hp _ _ _ Ep)). cbn.
      intros H. injection H as _ _ <-. reflexivity.
  - rewrite (except_exception file e (Ht _ _ _ _ _ Etr)). cbn [segs].
    destruct (segs fr) as [bound|]; [|contradiction].
    cbn. intros H. injection H as _ _ <-. reflexivity.
Qed.

(** What an iteration lets through. *)
Lemma loop_body_propagate fr file fr1 done e :
  loop_body ops u args fr file = (fr1, done, Propagate e) ->
  e <> KeyboardInterrupt
  /\ (is_Exception e = true ->
      e = UnboundLocalError "segs" /\ segs fr1 = None).
Proof.
  unfold loop_body.
  destruct (try_block ops args fr file) as [[fr' tried] raised].
  destruct raised as [e0|].
  - destruct e0; cbn [except_clauses is_Exception]; unfold finally_block;
      destruct (segs fr') eqn:Es; intros H; inversion H; subst;
      (split; [discriminate|]); intros Hex;
      solve [discriminate Hex | split; [reflexivity|exact Es]].
  - cbn [except_clauses]. unfold finally_block.
    destruct (segs fr') eqn:Es; intros H; inversion H; subst.
    split; [discriminate|]. intros _. split; [reflexivity|exact Es].
Qed.

(** X12.  Whatever the engine does, the loop transcribes the files of
    the batch in order, each at most once and without skipping any: the
    files transcribed are a prefix of the batch, and the whole batch
    when the loop runs to its end. *)
Theorem transcribed_prefix files :
  forall fr fr' trace c,
  for_loop ops u args fr files = (fr', trace, c) ->
  exists rest,
    files = transcribed_files trace ++ rest
    /\ (c = Next -> rest = []).
Proof.
  induction files as [|file files IH]; intros fr fr' trace c H.
  - cbn in H. injection H as _ <- <-. exists []. split; reflexivity.
  - cbn [for_loop] in H.
    destruct (loop_body ops u args fr file) as [[fr1 done] c1] eqn:Eb.
    pose proof (loop_body_transcribed _ ops u args _ _ _ _ _ Eb) as Ht.
    destruct c1.
    + destruct (for_loop ops u args fr1 files) as [[fr2 later] c2] eqn:El.
      injection H as _ <- <-.
      destruct (IH _ _ _ _ El) as (rest & Hfiles & Hnext).
      exists rest. rewrite transcribed_files_app, Ht. cbn [app].
      split; [f_equal; exact Hfiles|exact Hnext].
    + injection H as _ <- <-. exists files. rewrite Ht.
      split; [reflexivity|discriminate].
    + injection H as _ <- <-. exists files. rewrite Ht.
      split; [reflexivity|discriminate].
Qed.

(** X13.  Failure isolation from the second success on: once [segs] is
    bound, and with an engine whose calls raise nothing but
    [Exception]s, the loop never stops early: it runs to the end of the
    batch and transcribes every file. *)
Theorem failures_isolated_once_bound files :
  raises_only_exceptions ops ->
  forall fr fr' trace c,
  segs fr <> None ->
  for_loop ops u args fr files = (fr', trace, c) ->
  c = Next /\ transcribed_files trace = files.
Proof.
  intros Hops. induction files as [|file files IH]; intros fr fr' trace c Hb H.
  - cbn in H. injection H as _ <- <-. split; reflexivity.
  - cbn [for_loop] in H.
    destruct (loop_body ops u args fr file) as [[fr1 done] c1] eqn:Eb.
    pose proof (loop_body_bound _ _ _ _ _ Hops Hb Eb) as ->.
    destruct (for_loop ops u args fr1 files) as [[fr2 later] c2] eqn:El.
    injection H as _ <- <-.
    destruct (IH _ _ _ _ (loop_body_keeps_bound _ _ _ _ _ Eb Hb) El)
      as [-> Hfiles].
    split; [reflexivity|].
    rewrite transcribed_files_app, Hfiles.
    rewrite (loop_body_transcribed _ ops u args _ _ _ _ _ Eb). reflexivity.
Qed.

(** X14.  What leaves the loop, of all that [transcribe] and
    [print_timings] may raise: never [KeyboardInterrupt]; and an
    [Exception] only as the [UnboundLocalError] on [segs], which happens
    only while [segs] is still unbound, that is when it was unbound
    before the loop and no call of [transcribe] has returned. *)
Theorem what_leaves_the_loop files :
  forall fr fr' trace e,
  for_loop ops u args fr files = (fr', trace, Propagate e) ->
  e <> KeyboardInterrupt
  /\ (is_Exception e = true ->
      e = UnboundLocalError "segs"
      /\ segs fr = None
      /\ forall file k found,
           ~ In (CallTranscribe file k (Ok found)) trace).
Proof.
  induction files as [|file files IH]; intros fr fr' trace e H.
  - cbn in H. discriminate H.
  - cbn [for_loop] in H.
    destruct (loop_body ops u args fr file) as [[fr1 done] c1] eqn:Eb.
    assert (Hunbound : segs fr1 = None ->
              segs fr = None
              /\ forall f k found, ~ In (CallTranscribe f k (Ok found)) done).
    { intros Hn. clear H IH. revert Eb. unfold loop_body, try_block.
      destruct (transcribe ops (m fr) file (n_processors args))
        as [m1 [s|e1]].
      - destruct (print_timings ops m1) as [m2 r2].
        destruct (except_clauses file
                    match r2 with Ok _ => None | Raise e2 => Some e2 end)
          as [handled pending].
        cbn [segs finally_block]. intros H. injection H as <- _ _.
        discriminate Hn.
      - pose proof (except_clauses_silent file (Some e1)) as Hsilent.
        destruct (except_clauses file (Some e1)) as [handled pending].
        cbn [fst] in Hsilent. cbn [segs]. unfold finally_block.
        destruct (segs fr) as [bound|] eqn:Es; intros H;
          injection H as <- <- _; [discriminate Hn|].
        split; [reflexivity|]. intros f k found Hin.
        destruct Hin as [Hin|[Hin|Hin]]; try discriminate Hin.
        apply in_transcribed in Hin. rewrite Hsilent in Hin.
        contradiction. }
    destruct c1.
    + destruct (for_loop ops u args fr1 files) as [[fr2 later] c2] eqn:El.
      injection H as _ <- ->.
      destruct (IH _ _ _ _ El) as [Hki Hex].
      split; [exact Hki|]. intros He.
      destruct (Hex He) as (-> & Hfr1 & Hnone).
      destruct (Hunbound Hfr1) as [Hfr Hdone].
      repeat split; try assumption.
      intros f k found Hin. apply in_app_or in Hin.
      destruct Hin as [Hin|Hin]; [exact (Hdone f k found Hin)|].
      exact (Hnone f k found Hin).
    + discriminate H.
    + injection H as <- <- <-.
      destruct (loop_body_propagate _ _ _ _ _ Eb) as [Hki Hex].
      split; [exact Hki|]. intros He.
      destruct (Hex He) as [-> Hfr1].
      destruct (Hunbound Hfr1) as [Hfr Hdone].
      repeat split; assumption.
Qed.

End AnyBatch.

Section Outputs.

Variable M : Type.
Variable ops : Model M.
Variable u : utils.t.
Variable args : Namespace.

(** X15.  Whatever the engine does, every call of a writer made by the
    loop is for a requested format, on a non-empty list of segments, for
    a file of the batch, and is told the path of that file; the segments
    are those bound to [segs] before the loop or returned by a
    [transcribe] call of the loop. *)
Theorem outputs_disciplined files :
  forall fr fr' trace c,
  for_loop ops u args fr files = (fr', trace, c) ->
  forall fmt found file path,
    In (fmt, found, file, path) (written trace) ->
    output_flag args fmt = true
    /\ found <> []
    /\ In file files
    /\ path = writer u fmt found file
    /\ (segs fr = Some found
        \/ exists earlier,
             In (CallTranscribe earlier (n_processors args) (Ok found))
                trace).
Proof.
  induction files as [|file0 files IH]; intros fr fr' trace c H.
  - cbn in H. injection H as _ <- _. intros fmt found file path [].
  - cbn [for_loop] in H.
    destruct (loop_body ops u args fr file0) as [[fr1 done] c1] eqn:Eb.
    assert (Hdone : forall fmt found file path,
              In (fmt, found, file, path) (written done) ->
              output_flag args fmt = true /\ found <> [] /\ file = file0
              /\ path = writer u fmt found file
              /\ segs fr1 = Some found).
    { intros fmt found file path Hin.
      destruct (loop_body_written _ ops u args _ _ _ _ _ Eb _ Hin)
        as (fmt' & bound & Hs & Hw & Hf & Hne).
      injection Hw as -> -> -> ->. repeat split; assumption. }
    assert (Hsegs : forall found,
              segs fr1 = Some found ->
              segs fr = Some found
              \/ In (CallTranscribe file0 (n_processors args) (Ok found))
                    done).
    { intros found Hs.
      destruct (loop_body_segs _ ops u args _ _ _ _ _ Eb)
        as [Heq|(s & Hs' & Hin)].
      - left. congruence.
      - right. congruence. }
    assert (Hhead : forall later fmt found file path,
              In (fmt, found, file, path) (written done) ->
              output_flag args fmt = true /\ found <> []
              /\ In file (file0 :: files)
              /\ path = writer u fmt found file
              /\ (segs fr = Some found
                  \/ exists earlier,
                       In (CallTranscribe earlier (n_processors args)
                                          (Ok found)) (done ++ later))).
    { intros later fmt found file path Hin.
      destruct (Hdone _ _ _ _ Hin) as (Hf & Hne & -> & Hp & Hs).
      repeat split; try assumption; [left; reflexivity|].
      destruct (Hsegs found Hs) as [H0|Hc]; [left; exact H0|].
      right. exists file0. apply in_or_app. left. exact Hc. }
    destruct c1.
    + destruct (for_loop ops u args fr1 files) as [[fr2 later] c2] eqn:El.
      injection H as _ <- _. intros fmt found file path Hin.
      rewrite written_app in Hin. apply in_app_or in Hin.
      destruct Hin as [Hin|Hin]; [exact (Hhead later _ _ _ _ Hin)|].
      destruct (IH _ _ _ _ El _ _ _ _ Hin) as (Hf & Hne & Hfile & Hp & Hs).
      repeat split; try assumption; [right; exact Hfile|].
      destruct Hs as [Hs|[earlier Hc]].
      * destruct (Hsegs found Hs) as [H0|Hc]; [left; exact H0|].
        right. exists file0. apply in_or_app. left. exact Hc.
      * right. exists earlier. apply in_or_app. right. exact Hc.
    + injection H as _ <- _. intros fmt found file path Hin.
      rewrite <- (app_nil_r done). apply (Hhead [] _ _ _ _ Hin).
    + injection H as _ <- _. intros fmt found file path Hin.
      rewrite <- (app_nil_r done). apply (Hhead [] _ _ _ _ Hin).
Qed.

(** The status of the files over an iteration that succeeds. *)
Lemma batch_results_success cur file k found later :
  batch_results_from cur
    (([Log INFO (ProcessingFile file); CallTranscribe file k (Ok found);
       CallPrintTimings (Ok tt)] ++ if_segs u args found file) ++ later)
  = match cur with Some fs => [fs] | None => [] end
    ++ batch_results_from (Some (file, SUCCEEDED)) later.
Proof.
  rewrite <- app_assoc. cbn [app batch_results_from].
  rewrite (proj2 (if_segs_silent u args found file)). reflexivity.
Qed.

(** X16.  With an engine that never raises, the loop runs to the end of
    the batch, every file ends SUCCEEDED, and no output is stale: each
    writer call for a file is on segments that a [transcribe] call on
    that same file returned. *)
Theorem nothing_stale_without_failure files :
  never_raises ops ->
  forall fr fr' trace c,
  for_loop ops u args fr files = (fr', trace, c) ->
  c = Next
  /\ transcribed_files trace = files
  /\ batch_results trace = map (fun file => (file, SUCCEEDED)) files
  /\ forall fmt found file path,
       In (fmt, found, file, path) (written trace) ->
       In (CallTranscribe file (n_processors args) (Ok found)) trace.
Proof.
  intros [Ht Hp].
  assert (Hgen : forall files fr fr' trace c,
            for_loop ops u args fr files = (fr', trace, c) ->
            c = Next
            /\ transcribed_files trace = files
            /\ (forall cur,
                  batch_results_from cur trace
                  = match cur with Some fs => [fs] | None => [] end
                    ++ map (fun file => (file, SUCCEEDED)) files)
            /\ forall fmt found file path,
                 In (fmt, found, file, path) (written trace) ->
                 In (CallTranscribe file (n_processors args) (Ok found))
                    trace).
  { clear files. induction files as [|file0 files IH];
      intros fr fr' trace c H.
    - cbn in H. injection H as _ <- <-. repeat split.
      + intros cur. cbn. rewrite app_nil_r. reflexivity.
      + intros fmt found file path [].
    - destruct (Ht (m fr) file0 (n_processors args)) as (m1 & found0 & Etr).
      destruct (Hp m1) as (m2 & Ept).
      pose proof (loop_body_returns _ ops u args fr file0 m1 found0 m2
                    Etr Ept) as Eb.
      remember ([Log INFO (ProcessingFile file0);
                 CallTranscribe file0 (n_processors args) (Ok found0);
                 CallPrintTimings (Ok tt)] ++ if_segs u args found0 file0)
        as done eqn:Hdone.
      rewrite (for_loop_cons_next _ ops u args _ _ files _ _ Eb) in H.
      destruct (for_loop ops u args {| m := m2; segs := Some found0 |} files)
        as [[fr2 later] c2] eqn:El.
      injection H as _ <- <-.
      destruct (IH _ _ _ _ El) as (-> & Hfiles & Hres & Hown).
      split; [reflexivity|]. split; [|split].
      + rewrite transcribed_files_app, Hfiles.
        rewrite (loop_body_transcribed _ ops u args _ _ _ _ _ Eb).
        reflexivity.
      + intros cur. rewrite Hdone, batch_results_success, Hres.
        reflexivity.
      + intros fmt found file path Hin.
        rewrite written_app in Hin. apply in_app_or in Hin.
        destruct Hin as [Hin|Hin].
        * destruct (loop_body_written _ ops u args _ _ _ _ _ Eb _ Hin)
            as (fmt' & bound & Hs & Hw & _ & _).
          cbn [segs] in Hs. injection Hs as <-.
          injection Hw as -> -> -> ->.
          apply in_or_app. left. rewrite Hdone. cbn. auto.
        * apply in_or_app. right. exact (Hown _ _ _ _ Hin). }
  intros fr fr' trace c H.
  destruct (Hgen files fr fr' trace c H) as (Hc & Hfiles & Hres & Hown).
  repeat split; try assumption.
  unfold batch_results. rewrite (Hres None). reflexivity.
Qed.

End Outputs.

(** X12, witness: the interrupt during the second file leaves the third
    one out. *)
Lemma transcribed_prefix_witness :
  exists rest,
    Demo.abc
    = transcribed_files
        (snd (fst (for_loop (Demo.scripted Demo.second_interrupted)
                            Demo.writers (Demo.args Demo.abc true false)
                            {| m := Demo.second_interrupted; segs := None |}
                            Demo.abc)))
      ++ rest.
Proof.
  destruct (for_loop (Demo.scripted Demo.second_interrupted)
                     Demo.writers (Demo.args Demo.abc true false)
                     {| m := Demo.second_interrupted; segs := None |}
                     Demo.abc) as [[fr' trace] c] eqn:E.
  destruct (transcribed_prefix _ _ _ _ _ _ _ _ _ E) as (rest & H & _).
  exists rest. exact H.
Defined.

(** X13, witness: an engine failing on every other call, entered with
    [segs] bound. *)
Lemma failures_isolated_once_bound_witness :
  snd (for_loop Demo.flaky Demo.writers (Demo.args Demo.abc true false)
                {| m := 1; segs := Some Demo.bye |} Demo.abc)
  = Next.
Proof.
  destruct (for_loop Demo.flaky Demo.writers (Demo.args Demo.abc true false)
                     {| m := 1; segs := Some Demo.bye |} Demo.abc)
    as [[fr' trace] c] eqn:E.
  refine (proj1 (failures_isolated_once_bound _ Demo.flaky Demo.writers
                   (Demo.args Demo.abc true false) Demo.abc _
                   {| m := 1; segs := Some Demo.bye |} fr' trace c _ E)).
  - split.
    + intros st file k st' e H. cbn in H.
      destruct (Nat.even st); inversion H. reflexivity.
    + intros st st' e H. discriminate H.
  - discriminate.
Defined.

(** X14, witness: the first file fails; what leaves the loop is the
    [UnboundLocalError], and no transcription has returned. *)
Lemma what_leaves_the_loop_witness :
  snd (for_loop (Demo.scripted Demo.first_fails) Demo.writers
                (Demo.args ["a.wav"; "b.wav"] true false)
                {| m := Demo.first_fails; segs := None |}
                ["a.wav"; "b.wav"])
  = Propagate (UnboundLocalError "segs")
  /\ ~ In (CallTranscribe "b.wav" (Some 1%Z) (Ok Demo.bye))
          (snd (fst (for_loop (Demo.scripted Demo.first_fails) Demo.writers
                              (Demo.args ["a.wav"; "b.wav"] true false)
                              {| m := Demo.first_fails; segs := None |}
                              ["a.wav"; "b.wav"]))).
Proof.
  split; [reflexivity|].
  destruct (what_leaves_the_loop _
              (Demo.scripted Demo.first_fails) Demo.writers
              (Demo.args ["a.wav"; "b.wav"] true false)
              ["a.wav"; "b.wav"]
              {| m := Demo.first_fails; segs := None |}
              _ _ _ eq_refl) as [_ H].
  destruct (H eq_refl) as (_ & _ & Hnone).
  exact (Hnone "b.wav" (Some 1%Z) Demo.bye).
Defined.

(** X15, witness: the stale txt file written for [b.wav] is still a
    requested format, under the path of [b.wav], with segments that a
    call of the loop returned. *)
Lemma outputs_disciplined_witness :
  output_flag (Demo.args Demo.abc true false) TXT = true
  /\ Demo.hello <> []
  /\ In "b.wav" Demo.abc
  /\ "b.wav.txt" = writer Demo.writers TXT Demo.hello "b.wav"
  /\ ({| m := Demo.second_fails; segs := None |}.(segs) = Some Demo.hello
      \/ exists earlier,
           In (CallTranscribe earlier
                 (n_processors (Demo.args Demo.abc true false))
                 (Ok Demo.hello))
              (snd (fst (for_loop (Demo.scripted Demo.second_fails)
                                  Demo.writers
                                  (Demo.args Demo.abc true false)
                                  {| m := Demo.second_fails; segs := None |}
                                  Demo.abc)))).
Proof.
  apply (outputs_disciplined _
           (Demo.scripted Demo.second_fails) Demo.writers
           (Demo.args Demo.abc true false) Demo.abc
           {| m := Demo.second_fails; segs := None |} _ _ _ eq_refl
           TXT Demo.hello "b.wav" "b.wav.txt").
  vm_compute. auto 10.
Defined.

(** X16, witness: an engine that returns the same two segments for
    every file. *)
Lemma nothing_stale_without_failure_witness :
  batch_results
    (snd (fst (for_loop (Demo.steady Demo.hello) Demo.writers
                        (Demo.args Demo.abc true false)
                        {| m := tt; segs := None |} Demo.abc)))
  = [("a.wav", SUCCEEDED); ("b.wav", SUCCEEDED); ("c.wav", SUCCEEDED)].
Proof.
  destruct (for_loop (Demo.steady Demo.hello) Demo.writers
                     (Demo.args Demo.abc true false)
                     {| m := tt; segs := None |} Demo.abc)
    as [[fr' trace] c] eqn:E.
  refine (proj1 (proj2 (proj2
            (nothing_stale_without_failure _ (Demo.steady Demo.hello)
               Demo.writers (Demo.args Demo.abc true false) Demo.abc _
               {| m := tt; segs := None |} fr' trace c E)))).
  split.
  - intros st file k. exists st, Demo.hello. reflexivity.
  - intros st. exists st. reflexivity.
Defined.

(* ===================================================================== *)
(** ** The constructor of [Recording] *)
(* ===================================================================== *)

Lemma keywords_clash (k0 : string) (v0 : entry) (extra : Params) :
  existsb (fun kv => PyDict.contains [(k0, v0)] (fst kv)) extra
  = PyDict.contains extra k0.
Proof.
  unfold PyDict.contains. induction extra as [|[k v] extra IH];
    [reflexivity|].
  cbn [existsb]. rewrite IH. cbn [fst PyDict.getitem].
  rewrite (String.eqb_sym k0 k).
  destruct (String.eqb k k0); reflexivity.
Qed.

(** X17.  A [Recording] always builds its model with
    [print_realtime=True] put before the caller's model parameters, with
    one channel and the sample rate of the package; model parameters that
    name [print_realtime] themselves make the constructor raise
    [TypeError] before any model is built, so the setting cannot be
    overridden. *)
Theorem recording_forces_print_realtime {M} (ops : Model M) (rate : Z)
    (duration : Z) (model : string) (model_params : Params) :
  (PyDict.contains model_params "print_realtime" = true ->
   recording.__init__ ops rate duration model model_params
   = Raise TypeError)
  /\ (forall r,
        recording.__init__ ops rate duration model model_params = Ok r ->
        PyDict.contains model_params "print_realtime" = false
        /\ Model_init ops model
             (("print_realtime", Leaf (PBool true)) :: model_params)
           = Ok (recording.pwcpp_model r)
        /\ recording.duration r = duration
        /\ recording.sample_rate r = rate
        /\ recording.channels r = 1%Z).
Proof.
  unfold recording.__init__, recording.keywords.
  rewrite keywords_clash. split.
  - intros ->. reflexivity.
  - intros r.
    destruct (PyDict.contains model_params "print_realtime");
      [discriminate|].
    cbn [bind app].
    destruct (Model_init ops model
                (("print_realtime", Leaf (PBool true)) :: model_params))
      as [built|e]; [|discriminate].
    cbn [bind]. intros H. injection H as <-. repeat split.
Qed.
